(** * drpcmanager: the connection manager, as a transition system

    The manager of [drpcmanager] multiplexes streams over one transport.
    Its code is a handful of goroutines that meet on a one-slot semaphore,
    an unbuffered packet queue and three set-once signals.  This file
    embeds that code as a labelled, executable step function over an
    explicit state: every goroutine is a program counter into the function
    it runs, the label says which goroutine moves and what the outside
    world (scheduler, transport, stream, caller) answers.  The properties
    of the manager are then invariants of the reachable states and facts
    about the steps of one goroutine.

    Two smaller parts follow the manager: the slice loops and the static
    iterator of [storj.io/storj/storage] (module [storage]) and the
    listing prefix of the storj backend (module [storj]). *)

From Stdlib Require Import ZArith List Bool Lia.
From Stdlib.Strings Require Import String Byte.
From stdpp Require Import base tactics option list.

Local Open Scope Z_scope.

(** ** Errors, signals, packets, streams *)

(** Go's [error] values that the manager creates or is handed.  A Go
    [error] may be nil: that is [goerror] below. *)
Inductive error : Type :=
| managerClosed                 (* errs.New("manager closed") *)
| manageStreamExited            (* errs.New("manage stream exited") *)
| context_Canceled              (* context.Canceled *)
| context_DeadlineExceeded      (* context.DeadlineExceeded *)
| foreign (n : nat)             (* an error made by a collaborator *)
| Wrap (e : error).             (* errs.Wrap(err) with err != nil *)

Abbreviation goerror := (option error).
Abbreviation nil := (@None error).

(** Modelled from the spec: drpcsignal.Signal, the set-once signal of the
    spec's data model (set: first caller wins, later calls are no-ops;
    isSet; wait; err: the stored error).  [None] is a signal that is not
    set, [Some e] one that was set with the (possibly nil) error [e]. *)
Abbreviation Signal := (option (option error)).

Definition Set_ (e : goerror) (sg : Signal) : Signal :=
  match sg with
  | None => Some e
  | Some _ => sg
  end.

Definition IsSet (sg : Signal) : bool :=
  match sg with Some _ => true | None => false end.

Definition Err (sg : Signal) : goerror :=
  match sg with Some e => e | None => nil end.

(** Modelled from the spec: drpcwire.Kind and drpcwire.Packet (external
    interfaces: kind, id = (stream, message), data). *)
Inductive Kind : Type :=
| Kind_Invoke | Kind_Message | Kind_Error | Kind_Close | Kind_CloseSend
| Kind_other (n : nat).

Definition is_Invoke (k : Kind) : bool :=
  match k with Kind_Invoke => true | _ => false end.

Record Packet : Type := mkPacket {
  pkt_Kind : Kind;
  pkt_ID_Stream : Z;
  pkt_ID_Message : Z;
  pkt_Data : list byte
}.

(** Who made a stream: a bookkeeping tag, the code does not store it. *)
Inductive origin : Type := by_client | by_server.

(** Modelled from the spec: drpcstream.Stream, the stream collaborator of
    the spec's external interfaces.  A stream is open or in a terminal
    state; the terminal state is either the clean one ([Closed], the one
    [Finished] reports) or a cancelled one carrying the error it was
    cancelled with.  [cancels] records the arguments of the calls of
    Cancel, oldest first, the way a test double would. *)
Inductive status : Type :=
| Open
| Closed
| Cancelled (e : goerror).

Record Stream : Type := mkStream {
  str_id : Z;
  str_status : status;
  str_origin : origin;
  cancels : list goerror
}.

Definition drpcstream_New (id : Z) (o : origin) : Stream :=
  mkStream id Open o [].

Definition Terminated (st : Stream) : bool :=
  match str_status st with Open => false | _ => true end.

Definition Finished (st : Stream) : bool :=
  match str_status st with Closed => true | _ => false end.

(** A stream that is open moves to the terminal state [to]; one that is
    terminal already stays as it is. *)
Definition terminate (to : status) (st : Stream) : Stream :=
  match str_status st with
  | Open => mkStream (str_id st) to (str_origin st) (cancels st)
  | _ => st
  end.

Definition Cancel (e : goerror) (st : Stream) : Stream :=
  let st' := terminate (Cancelled e) st in
  mkStream (str_id st') (str_status st') (str_origin st') (cancels st' ++ [e]).

(** ** Goroutines *)

(** sync.Once: nobody has entered Do, somebody is running the function,
    or the function has returned. *)
Inductive Once : Type := once_fresh | once_running | once_done.

(** Close. *)
Inductive Close_pc : Type :=
| Close_once                      (* m.once.Do(func() { ... }) *)
| Close_term_Set                  (* m.term.Set(managerClosed) *)
| Close_tport_wait                (* <-m.tport.Signal() *)
| Close_sem_send                  (* m.sem <- struct{}{} *)
| Close_read_wait                 (* <-m.read.Signal() *)
| Close_return (ran : bool)       (* return m.tport.Err() *)
| Close_done (ran : bool) (err : goerror).

(** acquireSemaphore: the two reads of poll, then the select. *)
Inductive acquire_pc : Type :=
| poll_ctx                        (* case poll(ctx.Done()) *)
| poll_term                       (* case poll(m.term.Signal()) *)
| acquire_select.                 (* select { ctx.Done, term, sem <- } *)

(** NewClientStream. *)
Inductive Client_pc : Type :=
| Client_acquire (a : acquire_pc)
| Client_sid_load                 (* m.sid++ : read *)
| Client_sid_store (v : Z)        (* m.sid++ : write *)
| Client_New                      (* drpcstream.New; go manageStream; return *)
| Client_done (stream : option nat) (err : goerror).

(** NewServerStream. *)
Inductive Server_pc : Type :=
| Server_acquire (a : acquire_pc)
| Server_select                   (* for { select { ... } } *)
| Server_ctx_release              (* case <-ctx.Done(): <-m.sem *)
| Server_ctx_return               (*   return nil, empty, ctx.Err() *)
| Server_term_release             (* case <-m.term.Signal(): <-m.sem *)
| Server_term_return              (*   return nil, empty, m.term.Err() *)
| Server_New (pkt : Packet)       (* drpcstream.New; go manageStream; return *)
| Server_done (stream : option nat) (rpc : string) (err : goerror).

(** manageStream; [ms_wait n] is wg.Wait() with the counter at [n]. *)
Inductive ms_pc : Type :=
| ms_spawn                        (* wg.Add(2); go ...; go ... *)
| ms_wait (n : nat)               (* wg.Wait() *)
| ms_Cancel                       (* stream.Cancel(context.Canceled) *)
| ms_release                      (* <-m.sem *)
| ms_exit
| ms_panicked.

(** manageStreamPackets. *)
Inductive mp_pc : Type :=
| mp_select
| mp_HandlePacket (pkt : Packet)  (* err, ok := stream.HandlePacket(pkt) *)
| mp_term_Set (e : error)         (* m.term.Set(errs.Wrap(err)) *)
| mp_defer                        (* return: the deferred wg.Done() *)
| mp_exit
| mp_panicked.

(** manageStreamContext. *)
Inductive mc_pc : Type :=
| mc_select
| mc_Cancel                       (* stream.Cancel(ctx.Err()) *)
| mc_Finished                     (* if !stream.Finished() *)
| mc_term_Set                     (* m.term.Set(ctx.Err()) *)
| mc_defer                        (* return: the deferred wg.Done() *)
| mc_exit
| mc_panicked.

(** manageTransport. *)
Inductive mt_pc : Type :=
| mt_wait                         (* <-m.term.Signal() *)
| mt_Close                        (* m.tr.Close() *)
| mt_Set (r : goerror)            (* m.tport.Set(...) *)
| mt_exit.

(** manageReader. *)
Inductive mr_pc : Type :=
| mr_ReadPacket                   (* pkt, err := m.rd.ReadPacket() *)
| mr_term_Set (e : error)         (* m.term.Set(errs.Wrap(err)) *)
| mr_select (pkt : Packet)        (* select { term, m.queue <- pkt } *)
| mr_defer                        (* return: the deferred m.read.Set(managerClosed) *)
| mr_exit
| mr_panicked.

(** The goroutines that come and go: the callers of the exported methods
    and the three goroutines of a stream.  A context is named by its
    index in the table of contexts, a stream by its index in the table of
    streams, the supervisor of a sub-task by its index among the
    goroutines. *)
Inductive thread : Type :=
| Close (pc : Close_pc)
| NewClientStream (ctx : nat) (pc : Client_pc)
| NewServerStream (ctx : nat) (pc : Server_pc)
| manageStream (ctx stream : nat) (pc : ms_pc)
| manageStreamPackets (sup ctx stream : nat) (pc : mp_pc)
| manageStreamContext (sup ctx stream : nat) (pc : mc_pc).

(** ** State *)

Record state : Type := mkState {
  sid : Z;                        (* m.sid, a uint64 *)
  sem : nat;                      (* len(m.sem); the channel has capacity 1 *)
  term : Signal;
  read : Signal;
  tport : Signal;
  once : Once;
  tr : option goerror;            (* the transport: what Close returned, once called *)
  transport : mt_pc;              (* go m.manageTransport() *)
  reader : mr_pc;                 (* go m.manageReader() *)
  threads : list thread;
  ctxs : list goerror;            (* a context: nil while live, its Err() once done *)
  streams : list Stream;
  crashed : bool                  (* a panic reached the top of a goroutine *)
}.

Definition New : state :=
  mkState 0 0 None None None once_fresh None mt_wait mr_ReadPacket [] [] [] false.

Definition with_sid (v : Z) (s : state) : state :=
  mkState v (sem s) (term s) (read s) (tport s) (once s) (tr s) (transport s) (reader s) (threads s) (ctxs s) (streams s) (crashed s).
Definition with_sem (v : nat) (s : state) : state :=
  mkState (sid s) v (term s) (read s) (tport s) (once s) (tr s) (transport s) (reader s) (threads s) (ctxs s) (streams s) (crashed s).
Definition with_term (v : Signal) (s : state) : state :=
  mkState (sid s) (sem s) v (read s) (tport s) (once s) (tr s) (transport s) (reader s) (threads s) (ctxs s) (streams s) (crashed s).
Definition with_read (v : Signal) (s : state) : state :=
  mkState (sid s) (sem s) (term s) v (tport s) (once s) (tr s) (transport s) (reader s) (threads s) (ctxs s) (streams s) (crashed s).
Definition with_tport (v : Signal) (s : state) : state :=
  mkState (sid s) (sem s) (term s) (read s) v (once s) (tr s) (transport s) (reader s) (threads s) (ctxs s) (streams s) (crashed s).
Definition with_once (v : Once) (s : state) : state :=
  mkState (sid s) (sem s) (term s) (read s) (tport s) v (tr s) (transport s) (reader s) (threads s) (ctxs s) (streams s) (crashed s).
Definition with_tr (v : option goerror) (s : state) : state :=
  mkState (sid s) (sem s) (term s) (read s) (tport s) (once s) v (transport s) (reader s) (threads s) (ctxs s) (streams s) (crashed s).
Definition with_transport (v : mt_pc) (s : state) : state :=
  mkState (sid s) (sem s) (term s) (read s) (tport s) (once s) (tr s) v (reader s) (threads s) (ctxs s) (streams s) (crashed s).
Definition with_reader (v : mr_pc) (s : state) : state :=
  mkState (sid s) (sem s) (term s) (read s) (tport s) (once s) (tr s) (transport s) v (threads s) (ctxs s) (streams s) (crashed s).
Definition with_threads (v : list thread) (s : state) : state :=
  mkState (sid s) (sem s) (term s) (read s) (tport s) (once s) (tr s) (transport s) (reader s) v (ctxs s) (streams s) (crashed s).
Definition with_ctxs (v : list goerror) (s : state) : state :=
  mkState (sid s) (sem s) (term s) (read s) (tport s) (once s) (tr s) (transport s) (reader s) (threads s) v (streams s) (crashed s).
Definition with_streams (v : list Stream) (s : state) : state :=
  mkState (sid s) (sem s) (term s) (read s) (tport s) (once s) (tr s) (transport s) (reader s) (threads s) (ctxs s) v (crashed s).
Definition with_crashed (v : bool) (s : state) : state :=
  mkState (sid s) (sem s) (term s) (read s) (tport s) (once s) (tr s) (transport s) (reader s) (threads s) (ctxs s) (streams s) v.

Definition set_thread (i : nat) (t : thread) (s : state) : state :=
  with_threads (<[i:=t]> (threads s)) s.

Definition spawn (ts : list thread) (s : state) : state :=
  with_threads (threads s ++ ts) s.

Definition set_stream (k : nat) (st : Stream) (s : state) : state :=
  with_streams (<[k:=st]> (streams s)) s.

(** ctx.Err(): nil while the context is live.  A context the table does
    not hold behaves like context.Background(): it is never done. *)
Definition ctx_Err (cs : list goerror) (c : nat) : goerror :=
  match cs !! c with
  | Some e => e
  | None => nil
  end.

(** m.sid is a uint64. *)
Definition uint64_modulus : Z := 2 ^ 64.
Definition uint64_incr (v : Z) : Z := (v + 1) mod uint64_modulus.

(** cap(m.sem): "this semaphore controls the number of concurrent
    streams. it MUST be 1." *)
Definition sem_cap : nat := 1.

(** ** Steps *)

(** What the outside world decides at a step: which ready case a select
    commits to, and what a call into a collaborator answers. *)
Inductive choice : Type :=
| Go                              (* the next statement *)
| on_ctx                          (* case <-ctx.Done() *)
| on_term                         (* case <-m.term.Signal() *)
| on_sem                          (* case m.sem <- struct{}{} *)
| on_terminated                   (* case <-stream.Terminated() *)
| Closes (r : goerror)            (* tr.Close() returns r *)
| Reads (pkt : Packet)            (* ReadPacket returns pkt, nil *)
| Read_fails (e : error)          (* ReadPacket returns an error *)
| Handles (err : goerror) (ok : bool) (to : status)
                                  (* HandlePacket returns err, ok and leaves
                                     an open stream in state [to] *)
| Panics.                         (* the call panics *)

Inductive goroutine : Type :=
| Transport                       (* manageTransport *)
| Reader                          (* manageReader *)
| Thread (i : nat).

Inductive label : Type :=
| make_ctx                        (* the program makes a context *)
| cancel_ctx (c : nat) (e : error)  (* context c becomes done, Err() = e *)
| call_Close
| call_NewClientStream (c : nat)
| call_NewServerStream (c : nat)
| use_stream (k : nat) (to : status)  (* the user or the peer of stream k ends it *)
| deliver (i : nat)               (* m.queue: the reader sends, goroutine i receives *)
| run (g : goroutine) (c : choice).

(** *** manageTransport *)
Definition manageTransport_step (c : choice) (s : state) : option state :=
  match transport s, c with
  | mt_wait, Go =>
      if IsSet (term s) then Some (with_transport mt_Close s) else None
  | mt_Close, Closes r =>
      Some (with_transport (mt_Set r) (with_tr (Some r) s))
  | mt_Set r, Go =>
      Some (with_transport mt_exit (with_tport (Set_ r (tport s)) s))
  | _, _ => None
  end.

(** *** manageReader *)
Definition manageReader_step (c : choice) (s : state) : option state :=
  match reader s, c with
  | mr_ReadPacket, Reads pkt => Some (with_reader (mr_select pkt) s)
  | mr_ReadPacket, Read_fails e => Some (with_reader (mr_term_Set e) s)
  | mr_ReadPacket, Panics =>
      (* the deferred call runs while the panic unwinds *)
      Some (with_crashed true
             (with_reader mr_panicked
               (with_read (Set_ (Some managerClosed) (read s)) s)))
  | mr_term_Set e, Go =>
      Some (with_reader mr_defer (with_term (Set_ (Some (Wrap e)) (term s)) s))
  | mr_select _, on_term =>
      if IsSet (term s) then Some (with_reader mr_defer s) else None
  | mr_defer, Go =>
      Some (with_reader mr_exit
             (with_read (Set_ (Some managerClosed) (read s)) s))
  | _, _ => None
  end.

(** *** acquireSemaphore *)
Inductive acquired : Type :=
| Next (a : acquire_pc)
| Fails (e : error)               (* returns a non-nil error *)
| Succeeds.                       (* returns nil *)

Definition acquireSemaphore_step (a : acquire_pc) (c : choice) (ctx : nat)
    (s : state) : option (acquired * state) :=
  match a, c with
  | poll_ctx, Go =>
      match ctx_Err (ctxs s) ctx with
      | Some e => Some (Fails e, s)
      | None => Some (Next poll_term, s)
      end
  | poll_term, Go =>
      match term s with
      | Some (Some e) => Some (Fails e, s)
      | _ => Some (Next acquire_select, s)     (* poll returned nil *)
      end
  | acquire_select, on_ctx =>
      match ctx_Err (ctxs s) ctx with
      | Some e => Some (Fails e, s)
      | None => None
      end
  | acquire_select, on_term =>
      match term s with
      | Some (Some e) => Some (Fails e, s)
      | Some None => Some (Succeeds, s)        (* return m.term.Err() = nil *)
      | None => None
      end
  | acquire_select, on_sem =>
      if (sem s <? sem_cap)%nat
      then Some (Succeeds, with_sem (S (sem s)) s)
      else None
  | _, _ => None
  end.

(** *** Close *)
Definition Close_step (i : nat) (pc : Close_pc) (c : choice) (s : state)
    : option state :=
  match pc, c with
  | Close_once, Go =>
      match once s with
      | once_fresh => Some (set_thread i (Close Close_term_Set) (with_once once_running s))
      | once_running => None
      | once_done => Some (set_thread i (Close (Close_return false)) s)
      end
  | Close_term_Set, Go =>
      Some (set_thread i (Close Close_tport_wait)
             (with_term (Set_ (Some managerClosed) (term s)) s))
  | Close_tport_wait, Go =>
      if IsSet (tport s) then Some (set_thread i (Close Close_sem_send) s) else None
  | Close_sem_send, Go =>
      if (sem s <? sem_cap)%nat
      then Some (set_thread i (Close Close_read_wait) (with_sem (S (sem s)) s))
      else None
  | Close_read_wait, Go =>
      if IsSet (read s)
      then Some (set_thread i (Close (Close_return true)) (with_once once_done s))
      else None
  | Close_return ran, Go =>
      Some (set_thread i (Close (Close_done ran (Err (tport s)))) s)
  | _, _ => None
  end.

(** go m.manageStream(ctx, stream), for the stream made last. *)
Definition new_stream (ctx : nat) (st : Stream) (s : state) : state :=
  spawn [manageStream ctx (length (streams s)) ms_spawn]
    (with_streams (streams s ++ [st]) s).

(** *** NewClientStream *)
Definition NewClientStream_step (i ctx : nat) (pc : Client_pc) (c : choice)
    (s : state) : option state :=
  match pc with
  | Client_acquire a =>
      match acquireSemaphore_step a c ctx s with
      | Some (Next a', s') => Some (set_thread i (NewClientStream ctx (Client_acquire a')) s')
      | Some (Fails e, s') => Some (set_thread i (NewClientStream ctx (Client_done None (Some e))) s')
      | Some (Succeeds, s') => Some (set_thread i (NewClientStream ctx Client_sid_load) s')
      | None => None
      end
  | Client_sid_load =>
      match c with
      | Go => Some (set_thread i (NewClientStream ctx (Client_sid_store (sid s))) s)
      | _ => None
      end
  | Client_sid_store v =>
      match c with
      | Go => Some (set_thread i (NewClientStream ctx Client_New) (with_sid (uint64_incr v) s))
      | _ => None
      end
  | Client_New =>
      match c with
      | Go => Some (new_stream ctx (drpcstream_New (sid s) by_client)
                     (set_thread i (NewClientStream ctx (Client_done (Some (length (streams s))) nil)) s))
      | _ => None
      end
  | Client_done _ _ => None
  end.

(** *** NewServerStream *)
Definition NewServerStream_step (i ctx : nat) (pc : Server_pc) (c : choice)
    (s : state) : option state :=
  match pc with
  | Server_acquire a =>
      match acquireSemaphore_step a c ctx s with
      | Some (Next a', s') => Some (set_thread i (NewServerStream ctx (Server_acquire a')) s')
      | Some (Fails e, s') => Some (set_thread i (NewServerStream ctx (Server_done None EmptyString (Some e))) s')
      | Some (Succeeds, s') => Some (set_thread i (NewServerStream ctx Server_select) s')
      | None => None
      end
  | Server_select =>
      match c with
      | on_ctx =>
          match ctx_Err (ctxs s) ctx with
          | Some _ => Some (set_thread i (NewServerStream ctx Server_ctx_release) s)
          | None => None
          end
      | on_term =>
          if IsSet (term s)
          then Some (set_thread i (NewServerStream ctx Server_term_release) s)
          else None
      | _ => None
      end
  | Server_ctx_release =>
      match c, sem s with
      | Go, S n => Some (set_thread i (NewServerStream ctx Server_ctx_return) (with_sem n s))
      | _, _ => None
      end
  | Server_ctx_return =>
      match c with
      | Go => Some (set_thread i (NewServerStream ctx (Server_done None EmptyString (ctx_Err (ctxs s) ctx))) s)
      | _ => None
      end
  | Server_term_release =>
      match c, sem s with
      | Go, S n => Some (set_thread i (NewServerStream ctx Server_term_return) (with_sem n s))
      | _, _ => None
      end
  | Server_term_return =>
      match c with
      | Go => Some (set_thread i (NewServerStream ctx (Server_done None EmptyString (Err (term s)))) s)
      | _ => None
      end
  | Server_New pkt =>
      match c with
      | Go => Some (new_stream ctx (drpcstream_New (pkt_ID_Stream pkt) by_server)
                     (set_thread i (NewServerStream ctx
                        (Server_done (Some (length (streams s)))
                                     (string_of_list_byte (pkt_Data pkt)) nil)) s))
      | _ => None
      end
  | Server_done _ _ _ => None
  end.

(** *** manageStream and its two workers *)

(** wg.Done(), on the wait group of supervisor [sup]. *)
Definition wg_Done (sup : nat) (s : state) : option state :=
  match threads s !! sup with
  | Some (manageStream c k (ms_wait (S n))) =>
      Some (set_thread sup (manageStream c k (ms_wait n)) s)
  | _ => None
  end.

Definition manageStream_step (i ctx k : nat) (pc : ms_pc) (c : choice)
    (s : state) : option state :=
  match pc, c with
  | ms_spawn, Go =>
      Some (spawn [manageStreamPackets i ctx k mp_select;
                   manageStreamContext i ctx k mc_select]
             (set_thread i (manageStream ctx k (ms_wait 2)) s))
  | ms_wait O, Go => Some (set_thread i (manageStream ctx k ms_Cancel) s)
  | ms_Cancel, Go =>
      match streams s !! k with
      | Some st =>
          Some (set_thread i (manageStream ctx k ms_release)
                 (set_stream k (Cancel (Some context_Canceled) st) s))
      | None => None
      end
  | ms_Cancel, Panics =>
      (* nothing is deferred in manageStream *)
      Some (with_crashed true (set_thread i (manageStream ctx k ms_panicked) s))
  | ms_release, Go =>
      match sem s with
      | S n => Some (set_thread i (manageStream ctx k ms_exit) (with_sem n s))
      | O => None
      end
  | _, _ => None
  end.

Definition manageStreamPackets_step (i sup ctx k : nat) (pc : mp_pc)
    (c : choice) (s : state) : option state :=
  let at_ pc' := set_thread i (manageStreamPackets sup ctx k pc') in
  match pc, c with
  | mp_select, on_term =>
      if IsSet (term s) then Some (at_ mp_defer s) else None
  | mp_select, on_terminated =>
      match streams s !! k with
      | Some st => if Terminated st then Some (at_ mp_defer s) else None
      | None => None
      end
  | mp_HandlePacket _, Handles err ok to =>
      match streams s !! k with
      | Some st =>
          let s' := set_stream k (terminate to st) s in
          match err with
          | Some e => Some (at_ (mp_term_Set e) s')
          | None => Some (at_ (if ok then mp_select else mp_defer) s')
          end
      | None => None
      end
  | mp_HandlePacket _, Panics =>
      (* the deferred wg.Done() runs while the panic unwinds *)
      with_crashed true <$> wg_Done sup (at_ mp_panicked s)
  | mp_term_Set e, Go =>
      Some (at_ mp_defer (with_term (Set_ (Some (Wrap e)) (term s)) s))
  | mp_defer, Go => wg_Done sup (at_ mp_exit s)
  | _, _ => None
  end.

Definition manageStreamContext_step (i sup ctx k : nat) (pc : mc_pc)
    (c : choice) (s : state) : option state :=
  let at_ pc' := set_thread i (manageStreamContext sup ctx k pc') in
  match pc, c with
  | mc_select, on_term =>
      if IsSet (term s) then Some (at_ mc_defer s) else None
  | mc_select, on_terminated =>
      match streams s !! k with
      | Some st => if Terminated st then Some (at_ mc_defer s) else None
      | None => None
      end
  | mc_select, on_ctx =>
      match ctx_Err (ctxs s) ctx with
      | Some _ => Some (at_ mc_Cancel s)
      | None => None
      end
  | mc_Cancel, Go =>
      match streams s !! k with
      | Some st => Some (at_ mc_Finished (set_stream k (Cancel (ctx_Err (ctxs s) ctx) st) s))
      | None => None
      end
  | mc_Cancel, Panics =>
      with_crashed true <$> wg_Done sup (at_ mc_panicked s)
  | mc_Finished, Go =>
      match streams s !! k with
      | Some st => Some (at_ (if Finished st then mc_defer else mc_term_Set) s)
      | None => None
      end
  | mc_term_Set, Go =>
      Some (at_ mc_defer (with_term (Set_ (ctx_Err (ctxs s) ctx) (term s)) s))
  | mc_defer, Go => wg_Done sup (at_ mc_exit s)
  | _, _ => None
  end.

(** *** The queue *)

(** m.queue is unbuffered: the reader's send and a receive happen
    together.  The receivers are the select of NewServerStream and the
    select of manageStreamPackets. *)
Definition deliver_step (i : nat) (s : state) : option state :=
  match reader s, threads s !! i with
  | mr_select pkt, Some (NewServerStream ctx Server_select) =>
      let pc := if is_Invoke (pkt_Kind pkt) then Server_New pkt else Server_select in
      Some (set_thread i (NewServerStream ctx pc) (with_reader mr_ReadPacket s))
  | mr_select pkt, Some (manageStreamPackets sup ctx k mp_select) =>
      Some (set_thread i (manageStreamPackets sup ctx k (mp_HandlePacket pkt))
             (with_reader mr_ReadPacket s))
  | _, _ => None
  end.

(** *** One step of the whole program *)

Definition thread_step (i : nat) (t : thread) (c : choice) (s : state)
    : option state :=
  match t with
  | Close pc => Close_step i pc c s
  | NewClientStream ctx pc => NewClientStream_step i ctx pc c s
  | NewServerStream ctx pc => NewServerStream_step i ctx pc c s
  | manageStream ctx k pc => manageStream_step i ctx k pc c s
  | manageStreamPackets sup ctx k pc => manageStreamPackets_step i sup ctx k pc c s
  | manageStreamContext sup ctx k pc => manageStreamContext_step i sup ctx k pc c s
  end.

Definition live_step (l : label) (s : state) : option state :=
  match l with
  | make_ctx => Some (with_ctxs (ctxs s ++ [nil]) s)
  | cancel_ctx c e =>
      match ctxs s !! c with
      | Some None => Some (with_ctxs (<[c:=Some e]> (ctxs s)) s)
      | _ => None
      end
  | call_Close => Some (spawn [Close Close_once] s)
  | call_NewClientStream c =>
      Some (spawn [NewClientStream c (Client_acquire poll_ctx)] s)
  | call_NewServerStream c =>
      Some (spawn [NewServerStream c (Server_acquire poll_ctx)] s)
  | use_stream k to =>
      match streams s !! k with
      | Some st => Some (set_stream k (terminate to st) s)
      | None => None
      end
  | deliver i => deliver_step i s
  | run Transport c => manageTransport_step c s
  | run Reader c => manageReader_step c s
  | run (Thread i) c =>
      match threads s !! i with
      | Some t => thread_step i t c s
      | None => None
      end
  end.

(** After a panic has reached the top of a goroutine, nothing runs. *)
Definition step (l : label) (s : state) : option state :=
  if crashed s then None else live_step l s.

Fixpoint exec (ls : list label) (s : state) : option state :=
  match ls with
  | [] => Some s
  | l :: ls' =>
      match step l s with
      | Some s' => exec ls' s'
      | None => None
      end
  end.

(** The states the manager can be in: those a schedule leads to from
    [New]. *)
Definition reachable (s : state) : Prop :=
  ∃ ls, exec ls New = Some s.

(** ** Reachable states and invariants *)

Lemma exec_app (ls ls' : list label) (s : state) :
  exec (ls ++ ls') s = exec ls s ≫= exec ls'.
Proof.
  revert s. induction ls as [|l ls IH]; intros s; simpl; [done|].
  destruct (step l s); simpl; [apply IH|done].
Qed.

Lemma reachable_New : reachable New.
Proof. by exists []. Qed.

Lemma reachable_step (l : label) (s s' : state) :
  reachable s → step l s = Some s' → reachable s'.
Proof.
  intros [ls Hls] Hstep. exists (ls ++ [l]).
  rewrite exec_app, Hls. simpl. by rewrite Hstep.
Qed.

Lemma reachable_exec (ls : list label) (s s' : state) :
  reachable s → exec ls s = Some s' → reachable s'.
Proof.
  intros [ls0 Hls0] Hexec. exists (ls0 ++ ls).
  by rewrite exec_app, Hls0.
Qed.

(** A property that holds of [New] and that every step keeps holds of
    every reachable state. *)
Lemma reachable_ind (P : state → Prop) :
  P New →
  (∀ l s s', reachable s → P s → step l s = Some s' → P s') →
  ∀ s, reachable s → P s.
Proof.
  intros HNew Hstep s [ls Hls]. revert s Hls.
  induction ls as [|l ls IH] using rev_ind; intros s Hls.
  - simpl in Hls. by simplify_eq.
  - rewrite exec_app in Hls.
    destruct (exec ls New) as [s0|] eqn:Hs0; simpl in Hls; [|done].
    destruct (step l s0) as [s1|] eqn:Hs1; simpl in Hls; [|done].
    simplify_eq. eapply Hstep; [by exists ls| by apply IH |done].
Qed.

(** *** Counting goroutines *)

Fixpoint count (f : thread → nat) (ts : list thread) : nat :=
  match ts with
  | [] => O
  | t :: ts' => (f t + count f ts')%nat
  end.

Lemma count_app (f : thread → nat) (ts us : list thread) :
  count f (ts ++ us) = (count f ts + count f us)%nat.
Proof. induction ts as [|t ts IH]; simpl; [done|]. rewrite IH. lia. Qed.

Lemma count_insert (f : thread → nat) (ts : list thread) (i : nat) (t t' : thread) :
  ts !! i = Some t →
  (count f (<[i:=t']> ts) + f t = count f ts + f t')%nat.
Proof.
  revert i. induction ts as [|u ts IH]; intros [|i] Hi; simplify_eq/=; [lia|].
  specialize (IH _ Hi). lia.
Qed.

Lemma count_lookup_le (f : thread → nat) (ts : list thread) (i : nat) (t : thread) :
  ts !! i = Some t → (f t ≤ count f ts)%nat.
Proof.
  revert i. induction ts as [|u ts IH]; intros [|i] Hi; simplify_eq/=; [lia|].
  specialize (IH _ Hi). lia.
Qed.

(** Two distinct goroutines counted by [f] make the count at least 2. *)
Lemma count_lookup_two (f : thread → nat) (ts : list thread) (i j : nat) (t u : thread) :
  i ≠ j → ts !! i = Some t → ts !! j = Some u →
  (f t + f u ≤ count f ts)%nat.
Proof.
  revert i j. induction ts as [|v ts IH]; intros [|i] [|j] Hij Hi Hj;
    simplify_eq/=.
  - pose proof (count_lookup_le f _ _ _ Hj). lia.
  - pose proof (count_lookup_le f _ _ _ Hi). lia.
  - assert (i ≠ j) as Hne by congruence. specialize (IH _ _ Hne Hi Hj). lia.
Qed.

Lemma count_le (f g : thread → nat) (ts : list thread) :
  (∀ t, (f t ≤ g t)%nat) → (count f ts ≤ count g ts)%nat.
Proof.
  intros Hfg. induction ts as [|t ts IH]; simpl; [lia|].
  specialize (Hfg t). lia.
Qed.

(** If [f] is below [g] everywhere, a goroutine that [g] counts and [f]
    does not leaves room for one less in the count of [f]. *)
Lemma count_le_lookup (f g : thread → nat) (ts : list thread) (i : nat) (t : thread) :
  (∀ t, (f t ≤ g t)%nat) → ts !! i = Some t →
  (count f ts + g t ≤ count g ts + f t)%nat.
Proof.
  intros Hfg. revert i. induction ts as [|u ts IH]; intros [|i] Hi; simplify_eq/=.
  - pose proof (count_le f g ts Hfg). lia.
  - specialize (IH _ Hi). specialize (Hfg u). lia.
Qed.

(** *** Case analysis of a step *)

Ltac step_cases H :=
  unfold step, live_step, thread_step, manageTransport_step, manageReader_step,
    Close_step, NewClientStream_step, NewServerStream_step, acquireSemaphore_step,
    manageStream_step, manageStreamPackets_step, manageStreamContext_step,
    deliver_step, wg_Done, new_stream, spawn, set_thread, set_stream in H;
  repeat (case_match; simplify_eq/=; try done).

(** *** What a step never undoes *)

Definition stream_le (st st' : Stream) : Prop :=
  str_id st' = str_id st ∧ str_origin st' = str_origin st ∧
  (∀ e, e ∈ cancels st → e ∈ cancels st') ∧
  (Terminated st → str_status st' = str_status st).

Record extends (s s' : state) : Prop := mkExtends {
  ext_term : ∀ e, term s = Some e → term s' = Some e;
  ext_read : ∀ e, read s = Some e → read s' = Some e;
  ext_tport : ∀ e, tport s = Some e → tport s' = Some e;
  ext_once : once s = once_done → once s' = once_done;
  ext_ctxs : ∀ c e, ctx_Err (ctxs s) c = Some e → ctx_Err (ctxs s') c = Some e;
  ext_threads : (length (threads s) ≤ length (threads s'))%nat;
  ext_streams : ∀ k st, streams s !! k = Some st →
                ∃ st', streams s' !! k = Some st' ∧ stream_le st st'
}.

Lemma stream_le_refl (st : Stream) : stream_le st st.
Proof. by repeat split. Qed.

Lemma stream_le_terminate (to : status) (st : Stream) :
  stream_le st (terminate to st).
Proof.
  unfold stream_le, terminate, Terminated.
  destruct (str_status st) eqn:Hst; simpl; rewrite ?Hst; by repeat split.
Qed.

Lemma stream_le_Cancel (e : goerror) (st : Stream) :
  stream_le st (Cancel e st).
Proof.
  unfold stream_le, Cancel, terminate, Terminated.
  destruct (str_status st) eqn:Hst; simpl; rewrite ?Hst;
    repeat split; try done; intros x Hx; apply elem_of_app; by left.
Qed.

Lemma streams_insert_le (l : list Stream) (k : nat) (st st' : Stream) :
  l !! k = Some st → stream_le st st' →
  ∀ j x, l !! j = Some x → ∃ x', <[k:=st']> l !! j = Some x' ∧ stream_le x x'.
Proof.
  intros Hk Hle j x Hj. destruct (decide (k = j)) as [->|Hne].
  - exists st'. rewrite list_lookup_insert_eq by (by eapply lookup_lt_Some).
    by simplify_eq.
  - exists x. rewrite list_lookup_insert_ne by done. eauto using stream_le_refl.
Qed.

Lemma streams_app_le (l l' : list Stream) :
  ∀ j x, l !! j = Some x → ∃ x', (l ++ l') !! j = Some x' ∧ stream_le x x'.
Proof.
  intros j x Hj. exists x. split; [by apply lookup_app_l_Some|apply stream_le_refl].
Qed.

Lemma streams_refl_le (l : list Stream) :
  ∀ j x, l !! j = Some x → ∃ x', l !! j = Some x' ∧ stream_le x x'.
Proof. intros j x Hj. exists x. eauto using stream_le_refl. Qed.

Lemma Set_keeps (x : goerror) (sg : Signal) (e : goerror) :
  sg = Some e → Set_ x sg = Some e.
Proof. by intros ->. Qed.

Lemma ctx_Err_insert (cs : list goerror) (c : nat) (e : error) :
  cs !! c = Some None →
  ∀ c' e', ctx_Err cs c' = Some e' → ctx_Err (<[c:=Some e]> cs) c' = Some e'.
Proof.
  intros Hc c' e' He. unfold ctx_Err in *.
  destruct (decide (c = c')) as [Heq|Hne].
  - subst c'. by rewrite Hc in He.
  - by rewrite list_lookup_insert_ne.
Qed.

Lemma ctx_Err_app (cs l : list goerror) :
  ∀ c' e', ctx_Err cs c' = Some e' → ctx_Err (cs ++ l) c' = Some e'.
Proof.
  intros c' e'. unfold ctx_Err.
  destruct (cs !! c') eqn:Hc; [|done].
  by rewrite (lookup_app_l_Some _ _ _ _ Hc).
Qed.

Lemma extends_refl (s : state) : extends s s.
Proof. split; eauto using streams_refl_le. Qed.

Ltac extends_tac :=
  split; simpl;
  first
  [ by eauto using Set_keeps
  | by apply ctx_Err_insert
  | by apply ctx_Err_app
  | rewrite ?length_app, ?length_insert; simpl; lia
  | by eauto using streams_refl_le
  | by (intros; congruence)
  | by eauto using streams_app_le
  | by eauto using streams_insert_le, stream_le_terminate, stream_le_Cancel
  | idtac ].

Lemma step_extends (l : label) (s s' : state) :
  step l s = Some s' → extends s s'.
Proof.
  intros H. step_cases H; extends_tac.

Qed.

(** *** What holds where a goroutine stands *)

Definition thread_ok (s : state) (t : thread) : Prop :=
  match t with
  | Close Close_tport_wait => IsSet (term s)
  | Close Close_sem_send | Close Close_read_wait =>
      IsSet (term s) ∧ IsSet (tport s)
  | Close (Close_return _) => once s = once_done
  | Close (Close_done _ e) => once s = once_done ∧ tport s = Some e
  | manageStreamContext _ ctx _ (mc_Cancel | mc_Finished | mc_term_Set) =>
      ctx_Err (ctxs s) ctx ≠ nil
  | manageStream _ k (ms_release | ms_exit) =>
      ∃ st, streams s !! k = Some st ∧ Some context_Canceled ∈ cancels st
  | _ => True
  end.

Definition transport_ok (s : state) : Prop :=
  match transport s with
  | mt_wait => tport s = None ∧ tr s = None
  | mt_Close => IsSet (term s) ∧ tport s = None ∧ tr s = None
  | mt_Set r => IsSet (term s) ∧ tport s = None ∧ tr s = Some r
  | mt_exit => IsSet (term s) ∧ ∃ r, tport s = Some r ∧ tr s = Some r
  end.

Definition reader_ok (s : state) : Prop :=
  match reader s with
  | mr_defer => read s = None ∧ IsSet (term s)
  | mr_exit => read s = Some (Some managerClosed) ∧ IsSet (term s)
  | mr_panicked => read s = Some (Some managerClosed)
  | _ => read s = None
  end.

Record local_inv (s : state) : Prop := mkLocal {
  li_threads : Forall (thread_ok s) (threads s);
  li_term : term s ≠ Some nil;
  li_once : once s = once_done → IsSet (term s) ∧ IsSet (tport s) ∧ IsSet (read s);
  li_transport : transport_ok s;
  li_reader : reader_ok s
}.

Lemma IsSet_Set (x : goerror) (sg : Signal) : IsSet (Set_ x sg).
Proof. by destruct sg. Qed.

Lemma IsSet_Some (sg : Signal) : IsSet sg → ∃ e, sg = Some e.
Proof. destruct sg; [eauto|done]. Qed.

Lemma IsSet_true (sg : Signal) : IsSet sg = true → IsSet sg.
Proof. by intros ->. Qed.

Lemma IsSet_extends (sg sg' : Signal) :
  (∀ e, sg = Some e → sg' = Some e) → IsSet sg → IsSet sg'.
Proof. intros H [e He]%IsSet_Some. by rewrite (H _ He). Qed.

Lemma Set_nonnil (e : error) (sg : Signal) :
  sg ≠ Some nil → Set_ (Some e) sg ≠ Some nil.
Proof. by destruct sg. Qed.

Lemma thread_ok_extends (s s' : state) (t : thread) :
  extends s s' → thread_ok s t → thread_ok s' t.
Proof.
  intros [] Hok.
  destruct t as [pc|? pc|? pc|? ? pc|? ? ? pc|? ? ? pc]; destruct pc; simpl in *;
    try done.
  - eauto using IsSet_extends.
  - destruct Hok; eauto using IsSet_extends.
  - destruct Hok; eauto using IsSet_extends.
  - auto.
  - destruct Hok; eauto.
  - destruct Hok as (st & Hst & Hin).
    destruct (ext_streams0 _ _ Hst) as (st' & Hst' & _ & _ & Hc & _). eauto.
  - destruct Hok as (st & Hst & Hin).
    destruct (ext_streams0 _ _ Hst) as (st' & Hst' & _ & _ & Hc & _). eauto.
  - destruct (ctx_Err (ctxs s) ctx) eqn:E; [|done]. by rewrite (ext_ctxs0 _ _ E).
  - destruct (ctx_Err (ctxs s) ctx) eqn:E; [|done]. by rewrite (ext_ctxs0 _ _ E).
  - destruct (ctx_Err (ctxs s) ctx) eqn:E; [|done]. by rewrite (ext_ctxs0 _ _ E).
Qed.

Lemma local_inv_New : local_inv New.
Proof. by split. Qed.

Ltac note H :=
  let T := type of H in
  lazymatch goal with
  | _ : T |- _ => fail
  | _ => pose proof H
  end.

Lemma Cancel_logged (e : goerror) (st : Stream) : e ∈ cancels (Cancel e st).
Proof. unfold Cancel. simpl. apply elem_of_app. right. by left. Qed.

Lemma Set_nonnil' (e : goerror) (sg : Signal) :
  e ≠ nil → sg ≠ Some nil → Set_ e sg ≠ Some nil.
Proof. destruct sg; simpl; congruence. Qed.

Lemma IsSet_Err (sg : Signal) : IsSet sg → sg = Some (Err sg).
Proof. by destruct sg. Qed.

Lemma Set_None (e : goerror) (sg : Signal) : sg = None → Set_ e sg = Some e.
Proof. by intros ->. Qed.

Ltac use_pc :=
  repeat match goal with
  | H : transport _ = _ |- _ => rewrite H in *
  | H : reader _ = _ |- _ => rewrite H in *
  | H : once _ = _ |- _ => rewrite H in *
  | H : tport _ = _ |- _ => rewrite H in *
  | H : read _ = _ |- _ => rewrite H in *
  | H : tr _ = _ |- _ => rewrite H in *
  | H : ctx_Err _ _ = _ |- _ => rewrite H in *
  end.

Ltac split_hyps :=
  repeat match goal with
  | H : _ ∧ _ |- _ => destruct H
  | H : ∃ _, _ |- _ => destruct H
  end.

Ltac use_imp :=
  repeat match goal with
  | Hi : ?P → _, Hp : ?P |- _ => specialize (Hi Hp)
  | Hi : ?x = ?x → _ |- _ => specialize (Hi eq_refl)
  end.

Ltac field_tac :=
  unfold transport_ok, reader_ok in *; simpl in *;
  use_pc; repeat case_match; intros; use_imp; split_hyps; use_pc; simpl in *;
  try done; try congruence;
  try (repeat split;
       eauto using IsSet_Set, IsSet_true, IsSet_Err, Set_None, Set_nonnil, Set_nonnil').

Lemma Cancel_insert_logged (l : list Stream) (k : nat) (e : goerror) (st : Stream) :
  l !! k = Some st →
  ∃ st', <[k:=Cancel e st]> l !! k = Some st' ∧ e ∈ cancels st'.
Proof.
  intros Hk. exists (Cancel e st). split; [|apply Cancel_logged].
  apply list_lookup_insert_eq. by eapply lookup_lt_Some.
Qed.

Ltac threads_tac :=
  repeat match goal with
  | H : transport_ok _ |- _ => clear H
  | H : reader_ok _ |- _ => clear H
  end;
  repeat first
    [ assumption
    | apply Forall_app; split
    | apply Forall_insert
    | apply Forall_cons; split
    | apply Forall_nil ];
  simpl; field_tac; eauto using Cancel_insert_logged.

Lemma local_inv_step (l : label) (s s' : state) :
  local_inv s → step l s = Some s' → local_inv s'.
Proof.
  intros [Hts Hterm Honce Htr Hrd] H.
  pose proof (step_extends _ _ _ H) as Hext.
  assert (Forall (thread_ok s') (threads s)) as Hts'
    by (eapply Forall_impl; [done|]; intros ?; by apply thread_ok_extends).
  clear Hext.
  step_cases H.
  all: repeat match goal with
       | H : threads _ !! _ = Some _ |- _ =>
           note (proj1 (Forall_lookup _ _) Hts _ _ H)
       end; simpl in *.
  all: split; simpl.
  all: try assumption.
  all: lazymatch goal with
       | |- Forall _ _ => threads_tac
       | |- _ => field_tac
       end.
Qed.

(** *** The semaphore *)

(** The goroutines that hold the slot of [m.sem]. *)
Definition holds (t : thread) : nat :=
  match t with
  | Close (Close_read_wait | Close_return true | Close_done true _) => 1
  | NewClientStream _ (Client_sid_load | Client_sid_store _ | Client_New) => 1
  | NewServerStream _
      (Server_select | Server_ctx_release | Server_term_release | Server_New _) => 1
  | manageStream _ _ (ms_spawn | ms_wait _ | ms_Cancel | ms_release | ms_panicked) => 1
  | _ => 0
  end%nat.

Record sem_inv (s : state) : Prop := mkSemInv {
  si_holds : count holds (threads s) = sem s;
  si_cap : (sem s ≤ sem_cap)%nat
}.

Ltac count_facts f :=
  repeat match goal with
  | H : ?ts !! ?i = Some ?t |- _ =>
      match goal with
      | |- context [<[i:=?t']> ts] => note (count_insert f ts i t t' H)
      | _ : context [<[i:=?t']> ts] |- _ => note (count_insert f ts i t t' H)
      end
  end.

Ltac use_guards :=
  unfold sem_cap in *;
  repeat match goal with
  | H : (_ <? _)%nat = true |- _ => apply Nat.ltb_lt in H
  | H : (_ <? _)%nat = false |- _ => apply Nat.ltb_ge in H
  end.

Lemma sem_inv_New : sem_inv New.
Proof. split; simpl; unfold sem_cap; lia. Qed.

Lemma sem_inv_step (l : label) (s s' : state) :
  local_inv s → sem_inv s → step l s = Some s' → sem_inv s'.
Proof.
  intros [_ Hterm _ _ _] [Hc Hcap] H. step_cases H.
  all: split; simpl; rewrite ?count_app; count_facts holds; use_guards;
       simpl in *; try lia.
Qed.

(** *** sync.Once *)

(** The callers of Close that are inside the function given to Do, and
    those that have come out of it. *)
Definition in_Do (t : thread) : nat :=
  match t with
  | Close (Close_term_Set | Close_tport_wait | Close_sem_send | Close_read_wait) => 1
  | _ => 0
  end%nat.

Definition ran_Do (t : thread) : nat :=
  match t with
  | Close (Close_return true | Close_done true _) => 1
  | _ => 0
  end%nat.

Record once_inv (s : state) : Prop := mkOnceInv {
  oi_in : count in_Do (threads s) = match once s with once_running => 1 | _ => 0 end%nat;
  oi_ran : count ran_Do (threads s) = match once s with once_done => 1 | _ => 0 end%nat
}.

Ltac count_bounds f :=
  repeat match goal with
  | H : ?ts !! ?i = Some ?t |- _ => note (count_lookup_le f ts i t H)
  end.

Lemma once_inv_New : once_inv New.
Proof. by split. Qed.

Lemma once_inv_step (l : label) (s s' : state) :
  once_inv s → step l s = Some s' → once_inv s'.
Proof.
  intros [Hin Hran] H. step_cases H.
  all: count_bounds in_Do; count_bounds ran_Do;
       split; simpl; rewrite ?count_app;
       count_facts in_Do; count_facts ran_Do; simpl in *;
       repeat match goal with
       | H : once _ = _ |- _ => rewrite H in *
       end;
       repeat case_match; simpl in *; lia.
Qed.

(** *** The stream id counter *)

(** The ids of the streams NewClientStream made, oldest first. *)
Fixpoint client_ids (l : list Stream) : list Z :=
  match l with
  | [] => []
  | st :: l' =>
      match str_origin st with
      | by_client => str_id st :: client_ids l'
      | by_server => client_ids l'
      end
  end.

(** What a uint64 counter that starts at 0 shows after 1, 2, ..., n
    increments. *)
Definition sids (n : nat) : list Z :=
  map (λ j, Z.of_nat j mod uint64_modulus) (seq 1 n).

Definition at_store (t : thread) : nat :=
  match t with
  | NewClientStream _ (Client_sid_store _) => 1
  | _ => 0
  end%nat.

Definition at_New (t : thread) : nat :=
  match t with
  | NewClientStream _ Client_New => 1
  | _ => 0
  end%nat.

Definition store_ok (v : Z) (t : thread) : Prop :=
  match t with
  | NewClientStream _ (Client_sid_store v') => v' = v
  | _ => True
  end.

Record sid_inv (s : state) : Prop := mkSidInv {
  sd_ids : client_ids (streams s) = sids (length (client_ids (streams s)));
  sd_sid : sid s =
    Z.of_nat (length (client_ids (streams s)) + count at_New (threads s))
      mod uint64_modulus;
  sd_store : Forall (store_ok (sid s)) (threads s)
}.

Lemma client_ids_app (l l' : list Stream) :
  client_ids (l ++ l') = client_ids l ++ client_ids l'.
Proof.
  induction l as [|st l IH]; simpl; [done|].
  destruct (str_origin st); simpl; by rewrite IH.
Qed.

Lemma client_ids_insert (l : list Stream) (k : nat) (st st' : Stream) :
  l !! k = Some st → stream_le st st' →
  client_ids (<[k:=st']> l) = client_ids l.
Proof.
  intros Hk (Hid & Ho & _). revert k Hk.
  induction l as [|x l IH]; intros [|k] Hk; simplify_eq/=.
  - by rewrite Ho, Hid.
  - by rewrite (IH _ Hk).
Qed.

Lemma sids_S (n : nat) :
  sids (S n) = sids n ++ [Z.of_nat (S n) mod uint64_modulus].
Proof. unfold sids. by rewrite seq_S, map_app. Qed.

Lemma length_sids (n : nat) : length (sids n) = n.
Proof. unfold sids. by rewrite length_map, length_seq. Qed.

Lemma at_store_holds (t : thread) : (at_store t ≤ holds t)%nat.
Proof. destruct t as [pc|? pc|? pc|? ? pc|? ? ? pc|? ? ? pc]; destruct pc; simpl; lia. Qed.

Lemma at_New_holds (t : thread) : (at_New t ≤ holds t)%nat.
Proof. destruct t as [pc|? pc|? pc|? ? pc|? ? ? pc|? ? ? pc]; destruct pc; simpl; lia. Qed.

Lemma count_zero_Forall (f : thread → nat) (P : thread → Prop) (ts : list thread) :
  count f ts = 0%nat → (∀ t, f t = 0%nat → P t) → Forall P ts.
Proof.
  intros Hc HP. induction ts as [|t ts IH]; simpl in *; constructor.
  - apply HP. lia.
  - apply IH. lia.
Qed.

Lemma store_ok_other (v : Z) (t : thread) : at_store t = 0%nat → store_ok v t.
Proof. destruct t as [pc|? pc|? pc|? ? pc|? ? ? pc|? ? ? pc]; try done. by destruct pc. Qed.

Lemma uint64_incr_mod (n : nat) :
  uint64_incr (Z.of_nat n mod uint64_modulus) = Z.of_nat (S n) mod uint64_modulus.
Proof.
  unfold uint64_incr. rewrite Z.add_mod_idemp_l by done.
  f_equal. lia.
Qed.

Lemma sid_inv_New : sid_inv New.
Proof. split; simpl; [done|done|constructor]. Qed.

Ltac ids_tac :=
  rewrite ?client_ids_app; simpl;
  repeat match goal with
  | H : ?l !! ?k = Some ?st |- context [client_ids (<[?k:=?st']> ?l)] =>
      rewrite (client_ids_insert l k st st' H)
        by first [apply stream_le_terminate | apply stream_le_Cancel]
  end;
  rewrite ?app_nil_r.

Lemma sid_inv_step (l : label) (s s' : state) :
  sem_inv s → sid_inv s → step l s = Some s' → sid_inv s'.
Proof.
  intros [Hh Hcap] [Hids Hsid Hst] H. step_cases H.
  all: repeat match goal with
       | H : threads _ !! _ = Some _ |- _ =>
           note (proj1 (Forall_lookup _ _) Hst _ _ H);
           note (count_le_lookup at_New holds _ _ _ at_New_holds H);
           note (count_le_lookup at_store holds _ _ _ at_store_holds H)
       end; count_bounds at_New; simpl in *.
  all: split; simpl; ids_tac; try assumption.
  all: rewrite ?count_app; count_facts at_New; count_facts at_store;
       use_guards; simpl in *.
  all: rewrite ?length_app; simpl.
  all: try (rewrite Hsid at 1; f_equal; lia).
  all: try (repeat first
         [ assumption
         | apply Forall_app; split
         | apply Forall_insert
         | apply Forall_cons; split
         | apply Forall_nil ]; by simpl).
  - subst v. rewrite Hsid at 1. rewrite uint64_incr_mod. f_equal. lia.
  - apply (count_zero_Forall at_store); [lia|]. apply store_ok_other.
  - rewrite Nat.add_1_r, sids_S, <- Hids. do 2 f_equal.
    rewrite Hsid. f_equal. lia.
Qed.

(** *** The wait group of a supervisor *)

(** The workers of supervisor [i] that have not yet called wg.Done(). *)
Definition worker_of (i : nat) (t : thread) : nat :=
  match t with
  | manageStreamPackets sup _ _ pc =>
      if decide (sup = i)
      then match pc with mp_exit | mp_panicked => 0 | _ => 1 end
      else 0
  | manageStreamContext sup _ _ pc =>
      if decide (sup = i)
      then match pc with mc_exit | mc_panicked => 0 | _ => 1 end
      else 0
  | _ => 0
  end%nat.

(** The counter of the wait group a goroutine owns. *)
Definition wg (t : thread) : option nat :=
  match t with
  | manageStream _ _ pc => Some (match pc with ms_wait n => n | _ => O end)
  | _ => None
  end.

Record wg_inv (s : state) : Prop := mkWgInv {
  wg_count : ∀ i t n, threads s !! i = Some t → wg t = Some n →
             count (worker_of i) (threads s) = n;
  wg_fresh : ∀ i, (length (threads s) ≤ i)%nat →
             count (worker_of i) (threads s) = 0%nat
}.

Lemma wg_inv_New : wg_inv New.
Proof. split; [by intros [|i]|done]. Qed.

Ltac lookup_cases :=
  repeat match goal with
  | H : <[_:=_]> _ !! _ = Some _ |- _ =>
      apply list_lookup_insert_Some in H;
      destruct H as [(? & ? & ?)|(? & H)]; simplify_eq
  | H : (_ ++ _) !! _ = Some _ |- _ =>
      apply lookup_app_Some in H;
      destruct H as [H|(? & H)]
  | H : (_ :: _) !! ?k = Some _ |- _ =>
      let E := fresh in destruct k eqn:E; simpl in H; simplify_eq
  | H : [] !! _ = Some _ |- _ => by rewrite lookup_nil in H
  end.

Lemma wg_inv_step (l : label) (s s' : state) :
  wg_inv s → step l s = Some s' → wg_inv s'.
Proof.
  intros [Hc Hf] H. step_cases H.
  all: split; simpl; [intros iq tq nq Hl Hw|intros iq Hl].
  all: count_facts (worker_of iq).
  all: rewrite ?length_app, ?length_insert in *; simpl in *.
  all: lookup_cases; simpl in *; simplify_eq.
  all: rewrite ?length_app, ?length_insert in *; simpl in *.
  all: repeat match goal with
       | H : threads _ !! ?j = Some ?t |- _ =>
           note (Hc _ _ _ H eq_refl)
       | H : threads _ !! ?j = Some ?t, Hw : wg ?t = Some _ |- _ =>
           note (Hc _ _ _ H Hw)
       end.
  all: repeat match goal with
       | H : threads _ !! ?j = Some ?t |- _ =>
           note (lookup_lt_Some _ _ _ H)
       end.
  all: try (note (Hf iq ltac:(lia))).
  all: rewrite ?count_app; count_facts (worker_of iq); count_bounds (worker_of iq);
       simpl in *; repeat case_decide; simplify_eq; try lia.
Qed.

(** *** Panics *)

Definition panicked (t : thread) : nat :=
  match t with
  | manageStream _ _ ms_panicked
  | manageStreamPackets _ _ _ mp_panicked
  | manageStreamContext _ _ _ mc_panicked => 1
  | _ => 0
  end%nat.

(** While the program has not crashed no goroutine has panicked. *)
Definition panic_inv (s : state) : Prop :=
  crashed s = false →
  count panicked (threads s) = 0%nat ∧ reader s ≠ mr_panicked.

Lemma panic_inv_New : panic_inv New.
Proof. by split. Qed.

Lemma panic_inv_step (l : label) (s s' : state) :
  panic_inv s → step l s = Some s' → panic_inv s'.
Proof.
  intros Hp H. unfold panic_inv in *. step_cases H.
  all: intros; try done; destruct Hp as [Hp Hr]; [done|].
  all: split; [|congruence].
  all: rewrite ?count_app; count_facts panicked; count_bounds panicked;
       simpl in *; lia.
Qed.

(** *** All invariants together *)

Record inv (s : state) : Prop := mkInv {
  inv_local : local_inv s;
  inv_sem : sem_inv s;
  inv_once : once_inv s;
  inv_sid : sid_inv s;
  inv_wg : wg_inv s;
  inv_panic : panic_inv s
}.

Lemma inv_reachable (s : state) : reachable s → inv s.
Proof.
  revert s. apply reachable_ind.
  - split; auto using local_inv_New, sem_inv_New, once_inv_New, sid_inv_New,
      wg_inv_New, panic_inv_New.
  - intros l s s' _ [] Hstep. split;
      eauto using local_inv_step, sem_inv_step, once_inv_step, sid_inv_step,
        wg_inv_step, panic_inv_step.
Qed.

(** ** Steps of one goroutine *)

Lemma step_Thread (s : state) (i : nat) (t : thread) (c : choice) :
  crashed s = false → threads s !! i = Some t →
  step (run (Thread i) c) s = thread_step i t c s.
Proof. intros Hc Ht. unfold step, live_step. by rewrite Hc, Ht. Qed.

Lemma step_Reader (s : state) (c : choice) :
  crashed s = false → step (run Reader c) s = manageReader_step c s.
Proof. intros Hc. unfold step, live_step. by rewrite Hc. Qed.


Lemma lookup_set_thread (s : state) (i : nat) (t t0 : thread) :
  threads s !! i = Some t0 → threads (set_thread i t s) !! i = Some t.
Proof.
  intros Ht. simpl. apply list_lookup_insert_eq. by eapply lookup_lt_Some.
Qed.

Lemma set_thread_twice (s : state) (i : nat) (t t' : thread) :
  set_thread i t (set_thread i t' s) = set_thread i t s.
Proof. unfold set_thread, with_threads. simpl. by rewrite list_insert_insert_eq. Qed.

Lemma set_thread_same (s : state) (i : nat) (t : thread) :
  threads s !! i = Some t → set_thread i t s = s.
Proof.
  intros Ht. unfold set_thread, with_threads. rewrite (list_insert_id _ _ _ Ht).
  by destruct s.
Qed.

(** ** The claims *)

(** C10.  If, when NewClientStream or NewServerStream is called, the
    caller's context is already done and term is already set, the call
    returns the context's error and not the termination cause: the first
    read of the poll is the one of ctx.Done(), and it decides. *)
Theorem C10_poll_prefers_ctx (s : state) (i ctx : nat) (e : error) (cause : goerror) :
  crashed s = false →
  ctx_Err (ctxs s) ctx = Some e →
  term s = Some cause →
  (threads s !! i = Some (NewClientStream ctx (Client_acquire poll_ctx)) →
   step (run (Thread i) Go) s =
     Some (set_thread i (NewClientStream ctx (Client_done None (Some e))) s)) ∧
  (threads s !! i = Some (NewServerStream ctx (Server_acquire poll_ctx)) →
   step (run (Thread i) Go) s =
     Some (set_thread i (NewServerStream ctx (Server_done None EmptyString (Some e))) s)).
Proof.
  intros Hc He _. split; intros Ht; rewrite (step_Thread _ _ _ _ Hc Ht); simpl;
    unfold NewClientStream_step, NewServerStream_step; simpl; by rewrite He.
Qed.

(** A manager that was closed (term holds managerClosed) and on which
    both calls are then made with a context that is already cancelled. *)
Definition closed_then_called : list label :=
  [make_ctx; cancel_ctx 0 context_Canceled; call_Close;
   run (Thread 0) Go; run (Thread 0) Go;
   call_NewClientStream 0; call_NewServerStream 0].

Definition state_after (ls : list label) : state :=
  match exec ls New with
  | Some s => s
  | None => New
  end.

Definition closed_cancelled : state :=
  Eval vm_compute in state_after closed_then_called.

Lemma C10_witness :
  step (run (Thread 1) Go) closed_cancelled =
    Some (set_thread 1 (NewClientStream 0 (Client_done None (Some context_Canceled)))
            closed_cancelled) ∧
  step (run (Thread 2) Go) closed_cancelled =
    Some (set_thread 2 (NewServerStream 0 (Server_done None EmptyString (Some context_Canceled)))
            closed_cancelled).
Proof.
  split.
  - apply (C10_poll_prefers_ctx closed_cancelled 1 0
             context_Canceled (Some managerClosed)); reflexivity.
  - apply (C10_poll_prefers_ctx closed_cancelled 2 0
             context_Canceled (Some managerClosed)); reflexivity.
Defined.

(** C9.  Once term is set, a call of NewClientStream or NewServerStream
    whose context is not done returns term's error: the two reads of the
    poll are always enabled, the second one finds term set, and the call
    ends there.  Nothing but the caller's own record changes: no stream is
    made, the semaphore and sid are untouched. *)
Theorem C9_new_stream_after_term (s : state) (i ctx : nat) (cause : goerror) :
  reachable s →
  crashed s = false →
  term s = Some cause →
  ctx_Err (ctxs s) ctx = nil →
  ∃ e, cause = Some e ∧
    (threads s !! i = Some (NewClientStream ctx (Client_acquire poll_ctx)) →
     exec [run (Thread i) Go; run (Thread i) Go] s =
       Some (set_thread i (NewClientStream ctx (Client_done None (Some e))) s)) ∧
    (threads s !! i = Some (NewServerStream ctx (Server_acquire poll_ctx)) →
     exec [run (Thread i) Go; run (Thread i) Go] s =
       Some (set_thread i (NewServerStream ctx (Server_done None EmptyString (Some e))) s)) ∧
    (threads s !! i = Some (NewClientStream ctx (Client_acquire poll_term)) →
     step (run (Thread i) Go) s =
       Some (set_thread i (NewClientStream ctx (Client_done None (Some e))) s)) ∧
    (threads s !! i = Some (NewServerStream ctx (Server_acquire poll_term)) →
     step (run (Thread i) Go) s =
       Some (set_thread i (NewServerStream ctx (Server_done None EmptyString (Some e))) s)).
Proof.
  intros Hr Hc Hterm Hctx.
  destruct cause as [e|]; [|by destruct (li_term _ (inv_local _ (inv_reachable _ Hr)))].
  exists e. split; [done|].
  repeat split; intros Ht; simpl.
  - rewrite (step_Thread _ _ _ _ Hc Ht). simpl.
    unfold NewClientStream_step. simpl. rewrite Hctx.
    erewrite step_Thread; [|done|by eapply lookup_set_thread].
    simpl. unfold NewClientStream_step. simpl. rewrite Hterm.
    by rewrite set_thread_twice.
  - rewrite (step_Thread _ _ _ _ Hc Ht). simpl.
    unfold NewServerStream_step. simpl. rewrite Hctx.
    erewrite step_Thread; [|done|by eapply lookup_set_thread].
    simpl. unfold NewServerStream_step. simpl. rewrite Hterm.
    by rewrite set_thread_twice.
  - rewrite (step_Thread _ _ _ _ Hc Ht). simpl.
    unfold NewClientStream_step. simpl. by rewrite Hterm.
  - rewrite (step_Thread _ _ _ _ Hc Ht). simpl.
    unfold NewServerStream_step. simpl. by rewrite Hterm.
Qed.

Definition closed_then_called_live : list label :=
  [make_ctx; call_Close; run (Thread 0) Go; run (Thread 0) Go;
   call_NewClientStream 0; call_NewServerStream 0].

Definition closed_live : state :=
  Eval vm_compute in state_after closed_then_called_live.

Lemma reachable_closed_live : reachable closed_live.
Proof. exists closed_then_called_live. vm_compute. reflexivity. Qed.

Lemma C9_witness :
  ∃ e, Some managerClosed = Some e ∧
    exec [run (Thread 1) Go; run (Thread 1) Go] closed_live =
      Some (set_thread 1 (NewClientStream 0 (Client_done None (Some e))) closed_live) ∧
    exec [run (Thread 2) Go; run (Thread 2) Go] closed_live =
      Some (set_thread 2 (NewServerStream 0 (Server_done None EmptyString (Some e)))
              closed_live).
Proof.
  destruct (C9_new_stream_after_term closed_live 1 0 (Some managerClosed)
              reachable_closed_live eq_refl eq_refl eq_refl) as (e & He & Hcl & _).
  destruct (C9_new_stream_after_term closed_live 2 0 (Some managerClosed)
              reachable_closed_live eq_refl eq_refl eq_refl) as (e' & He' & _ & Hsv & _).
  exists e. split; [exact He|]. split; [exact (Hcl eq_refl)|].
  assert (e' = e) as <- by congruence. exact (Hsv eq_refl).
Defined.

(** C8.  When ReadPacket returns an error the reader pump sets term to
    the wrapped error and leaves its loop; and however the pump ends (a
    read error, term seen in the select, a panic of ReadPacket) the
    deferred call has set the read signal to managerClosed, which nothing
    else ever sets. *)
Theorem C8_reader_pump (s : state) :
  reachable s →
  (∀ e, crashed s = false → reader s = mr_ReadPacket →
     ∃ s', exec [run Reader (Read_fails e); run Reader Go; run Reader Go] s = Some s' ∧
           term s' = Set_ (Some (Wrap e)) (term s) ∧
           reader s' = mr_exit ∧
           read s' = Some (Some managerClosed)) ∧
  (reader s = mr_exit ∨ reader s = mr_panicked →
     read s = Some (Some managerClosed)) ∧
  (reader s ≠ mr_exit → reader s ≠ mr_panicked → read s = None).
Proof.
  intros Hr. pose proof (li_reader _ (inv_local _ (inv_reachable _ Hr))) as Hrd.
  unfold reader_ok in Hrd. repeat split.
  - intros e Hc Hpc. rewrite Hpc in Hrd. eexists. split.
    + simpl. rewrite (step_Reader _ _ Hc). unfold manageReader_step.
      rewrite Hpc. rewrite step_Reader by done. unfold manageReader_step. simpl.
      rewrite step_Reader by done. unfold manageReader_step. simpl. done.
    + simpl. by rewrite Hrd.
  - intros [Hpc|Hpc]; rewrite Hpc in Hrd; [by destruct Hrd|done].
  - intros Hne1 Hne2. destruct (reader s); try done. by destruct Hrd.
Qed.

Lemma C8_witness :
  (∃ s', exec [run Reader (Read_fails (foreign 7)); run Reader Go; run Reader Go] New = Some s' ∧
         term s' = Set_ (Some (Wrap (foreign 7))) (term New) ∧
         reader s' = mr_exit ∧
         read s' = Some (Some managerClosed)) ∧
  read New = None.
Proof.
  destruct (C8_reader_pump New reachable_New) as (Hfail & _ & Hlive).
  split; [by apply Hfail|by apply Hlive].
Defined.

(** C1.  Every call of Close that has returned has returned the error the
    transport supervisor recorded from tr.Close(); by then the function
    given to once.Do has run to its end (term set, tport set, the
    semaphore taken, read set), and it is entered once at most: two calls
    that returned have returned the same value. *)
Theorem C1_Close_once (s : state) :
  reachable s →
  (count in_Do (threads s) + count ran_Do (threads s) ≤ 1)%nat ∧
  (∀ i ran e, threads s !! i = Some (Close (Close_done ran e)) →
     tr s = Some e ∧ tport s = Some e ∧
     once s = once_done ∧
     IsSet (term s) ∧ IsSet (read s) ∧ sem s = 1%nat ∧
     count in_Do (threads s) = 0%nat ∧ count ran_Do (threads s) = 1%nat) ∧
  (∀ i j ran ran' e e',
     threads s !! i = Some (Close (Close_done ran e)) →
     threads s !! j = Some (Close (Close_done ran' e')) → e = e').
Proof.
  intros Hr. destruct (inv_reachable _ Hr) as [Hl [Hh Hcap] [Hin Hran] _ _ _].
  destruct Hl as [Hts _ Honce Htr _].
  assert (∀ i ran e, threads s !! i = Some (Close (Close_done ran e)) →
            once s = once_done ∧ tport s = Some e) as Hdone.
  { intros i ran e Hi. apply (proj1 (Forall_lookup _ _) Hts _ _ Hi). }
  repeat split.
  - rewrite Hin, Hran. destruct (once s); lia.
  - destruct (Hdone _ _ _ H) as [_ Htp].
    unfold transport_ok in Htr.
    destruct (transport s); [destruct Htr as [? _]|destruct Htr as (_ & ? & _)
                            |destruct Htr as (_ & ? & _)|destruct Htr as (_ & r & ? & ?)];
      congruence.
  - by destruct (Hdone _ _ _ H).
  - by destruct (Hdone _ _ _ H).
  - destruct (Hdone _ _ _ H) as [Ho _]. by destruct (Honce Ho).
  - destruct (Hdone _ _ _ H) as [Ho _]. by destruct (Honce Ho) as (_ & _ & ?).
  - destruct (Hdone _ _ _ H) as [Ho _]. rewrite Ho in Hran.
    assert (count ran_Do (threads s) ≤ count holds (threads s))%nat.
    { apply count_le. intros [pc| | | | |]; try (simpl; lia).
      destruct pc as [| | | | |[]|[]]; simpl; lia. }
    unfold sem_cap in *. lia.
  - destruct (Hdone _ _ _ H) as [Ho _]. by rewrite Hin, Ho.
  - destruct (Hdone _ _ _ H) as [Ho _]. by rewrite Hran, Ho.
  - intros i j ran ran' e e' Hi Hj.
    destruct (Hdone _ _ _ Hi) as [_ ?], (Hdone _ _ _ Hj) as [_ ?]. congruence.
Qed.

(** A client stream that runs to its end, then two calls of Close. *)
Definition pong : Packet := mkPacket Kind_Message 1 1 [x70; x6f; x6e; x67].
Definition close_1 : Packet := mkPacket Kind_Close 1 0 [].

Definition client_then_close : list label :=
  [make_ctx; call_NewClientStream 0;
   run (Thread 0) Go; run (Thread 0) Go; run (Thread 0) on_sem;
   run (Thread 0) Go; run (Thread 0) Go; run (Thread 0) Go;
   run (Thread 1) Go;
   run Reader (Reads pong); deliver 2; run (Thread 2) (Handles nil true Open);
   run Reader (Reads close_1); deliver 2; run (Thread 2) (Handles nil false Closed);
   run (Thread 2) Go; run (Thread 3) on_terminated; run (Thread 3) Go;
   run (Thread 1) Go; run (Thread 1) Go; run (Thread 1) Go;
   call_Close; call_Close;
   run (Thread 4) Go; run (Thread 4) Go;
   run Transport Go; run Transport (Closes nil); run Transport Go;
   run (Thread 4) Go; run (Thread 4) Go;
   run Reader (Read_fails (foreign 1)); run Reader Go; run Reader Go;
   run (Thread 4) Go; run (Thread 4) Go;
   run (Thread 5) Go; run (Thread 5) Go].

Definition closed_twice : state :=
  Eval vm_compute in state_after client_then_close.

Lemma reachable_closed_twice : reachable closed_twice.
Proof. exists client_then_close. vm_compute. reflexivity. Qed.

Lemma C1_witness :
  tr closed_twice = Some nil ∧
  once closed_twice = once_done ∧
  count ran_Do (threads closed_twice) = 1%nat.
Proof.
  destruct (C1_Close_once closed_twice reachable_closed_twice) as (_ & Hdone & _).
  destruct (Hdone 4%nat true nil eq_refl) as (Htr & _ & Ho & _ & _ & _ & _ & Hran).
  exact (conj Htr (conj Ho Hran)).
Defined.

(** C2.  The goroutines that hold the slot of the semaphore (a call of
    NewClientStream or NewServerStream from its acquisition on, the
    supervisor of the stream it makes until it releases, Close once it has
    taken the slot) are as many as len(m.sem), which is at most one; so at
    most one stream has a supervisor that has not released, and a stream
    is made only when none has. *)
Definition live (t : thread) : nat :=
  match t with
  | manageStream _ _ (ms_spawn | ms_wait _ | ms_Cancel | ms_release | ms_panicked) => 1
  | _ => 0
  end%nat.

Lemma live_holds (t : thread) : (live t ≤ holds t)%nat.
Proof. destruct t as [pc|? pc|? pc|? ? pc|? ? ? pc|? ? ? pc]; destruct pc; simpl; lia. Qed.

Theorem C2_one_live_stream (s : state) :
  reachable s →
  count holds (threads s) = sem s ∧ (sem s ≤ 1)%nat ∧
  (count live (threads s) ≤ 1)%nat ∧
  (∀ i j t u, i ≠ j → threads s !! i = Some t → threads s !! j = Some u →
     holds t = 1%nat → holds u = 0%nat) ∧
  (∀ l s', step l s = Some s' → (length (streams s) < length (streams s'))%nat →
     count live (threads s) = 0%nat ∧ count live (threads s') = 1%nat ∧
     ∃ i t, l = run (Thread i) Go ∧ threads s !! i = Some t ∧ holds t = 1%nat).
Proof.
  intros Hr. destruct (inv_sem _ (inv_reachable _ Hr)) as [Hh Hcap].
  unfold sem_cap in Hcap.
  pose proof (count_le live holds (threads s) live_holds) as Hlive.
  split; [done|]. split; [done|]. split; [lia|]. split.
  - intros i j t u Hij Hi Hj Ht.
    pose proof (count_lookup_two holds _ _ _ _ _ Hij Hi Hj).
    destruct u as [pc|? pc|? pc|? ? pc|? ? ? pc|? ? ? pc]; destruct pc;
      simpl in *; try done; try lia.
    all: destruct ran; simpl in *; try done; lia.
  - intros l s' H Hlen. step_cases H.
    all: rewrite ?length_insert, ?length_app in Hlen; simpl in Hlen; try lia.
    all: repeat match goal with
         | H : threads _ !! _ = Some _ |- _ =>
             note (count_le_lookup live holds _ _ _ live_holds H)
         end; count_facts live; count_bounds live; rewrite ?count_app;
         simpl in *.
    all: repeat split; try lia; eauto.
Qed.

Definition client_acquired : state :=
  Eval vm_compute in
    state_after [make_ctx; call_NewClientStream 0;
                 run (Thread 0) Go; run (Thread 0) Go; run (Thread 0) on_sem;
                 run (Thread 0) Go; run (Thread 0) Go].

Lemma reachable_client_acquired : reachable client_acquired.
Proof.
  exists [make_ctx; call_NewClientStream 0;
          run (Thread 0) Go; run (Thread 0) Go; run (Thread 0) on_sem;
          run (Thread 0) Go; run (Thread 0) Go].
  vm_compute. reflexivity.
Qed.

Lemma C2_witness :
  sem client_acquired = 1%nat ∧
  count live (threads client_acquired) = 0%nat ∧
  ∃ s', step (run (Thread 0) Go) client_acquired = Some s' ∧
        count live (threads s') = 1%nat.
Proof.
  destruct (C2_one_live_stream client_acquired reachable_client_acquired)
    as (Hh & _ & _ & _ & Hnew).
  split; [reflexivity|].
  destruct (step (run (Thread 0) Go) client_acquired) as [s'|] eqn:Hs';
    [|vm_compute in Hs'; discriminate].
  destruct (Hnew _ _ Hs') as (H0 & H1 & _).
  - vm_compute in Hs'. injection Hs' as <-. vm_compute. lia.
  - split; [exact H0|]. exists s'. split; [reflexivity|exact H1].
Defined.

(** *** NewServerStream waiting for an Invoke *)



Lemma with_reader_same (s : state) :
  with_reader (reader s) s = s.
Proof. by destruct s. Qed.




Definition invoke_Echo : Packet := mkPacket Kind_Invoke 8 0 [x45; x63; x68; x6f].


Lemma exec_cons (l : label) (ls : list label) (s s' : state) :
  step l s = Some s' → exec (l :: ls) s = exec ls s'.
Proof. intros H. simpl. by rewrite H. Qed.

Lemma accept_on_ctx (s : state) (i ctx n : nat) (e : error) :
  crashed s = false →
  threads s !! i = Some (NewServerStream ctx Server_select) →
  sem s = S n →
  ctx_Err (ctxs s) ctx = Some e →
  exec [run (Thread i) on_ctx; run (Thread i) Go] s =
    Some (set_thread i (NewServerStream ctx Server_ctx_return) (with_sem n s)) ∧
  exec [run (Thread i) on_ctx; run (Thread i) Go; run (Thread i) Go] s =
    Some (set_thread i (NewServerStream ctx (Server_done None EmptyString (Some e)))
            (with_sem n s)).
Proof.
  intros Hc Ht Hsem He.
  assert (exec [run (Thread i) on_ctx; run (Thread i) Go] s =
     Some (set_thread i (NewServerStream ctx Server_ctx_return) (with_sem n s))) as H2.
  { simpl. rewrite (step_Thread _ _ _ _ Hc Ht). simpl.
    unfold NewServerStream_step. rewrite He.
    erewrite step_Thread; [|done|by eapply lookup_set_thread].
    simpl. unfold NewServerStream_step. simpl. rewrite Hsem.
    f_equal. unfold set_thread. simpl. by rewrite list_insert_insert_eq. }
  split; [done|].
  change [run (Thread i) on_ctx; run (Thread i) Go; run (Thread i) Go]
    with ([run (Thread i) on_ctx; run (Thread i) Go] ++ [run (Thread i) Go]).
  rewrite exec_app, H2. simpl.
  erewrite step_Thread; [|done|by eapply lookup_set_thread].
  simpl. unfold NewServerStream_step. simpl. rewrite He.
  f_equal. unfold set_thread. simpl. by rewrite list_insert_insert_eq.
Qed.

Lemma accept_on_term (s : state) (i ctx n : nat) (cause : goerror) :
  crashed s = false →
  threads s !! i = Some (NewServerStream ctx Server_select) →
  sem s = S n →
  term s = Some cause →
  exec [run (Thread i) on_term; run (Thread i) Go] s =
    Some (set_thread i (NewServerStream ctx Server_term_return) (with_sem n s)) ∧
  exec [run (Thread i) on_term; run (Thread i) Go; run (Thread i) Go] s =
    Some (set_thread i (NewServerStream ctx (Server_done None EmptyString cause))
            (with_sem n s)).
Proof.
  intros Hc Ht Hsem Hterm.
  assert (exec [run (Thread i) on_term; run (Thread i) Go] s =
     Some (set_thread i (NewServerStream ctx Server_term_return) (with_sem n s))) as H2.
  { simpl. rewrite (step_Thread _ _ _ _ Hc Ht). simpl.
    unfold NewServerStream_step. rewrite Hterm. simpl.
    erewrite step_Thread; [|done|by eapply lookup_set_thread].
    simpl. unfold NewServerStream_step. simpl. rewrite Hsem.
    f_equal. unfold set_thread. simpl. by rewrite list_insert_insert_eq. }
  split; [done|].
  change [run (Thread i) on_term; run (Thread i) Go; run (Thread i) Go]
    with ([run (Thread i) on_term; run (Thread i) Go] ++ [run (Thread i) Go]).
  rewrite exec_app, H2. simpl.
  erewrite step_Thread; [|done|by eapply lookup_set_thread].
  simpl. unfold NewServerStream_step. simpl. rewrite Hterm.
  f_equal. unfold set_thread. simpl. by rewrite list_insert_insert_eq.
Qed.

(** The slot taken and given back: from the select of acquireSemaphore,
    through the acquisition and the interrupted wait, the manager ends as
    it started, but for the caller's own result. *)
Lemma accept_interrupted_restores (s : state) (i ctx : nat) (e : error) :
  crashed s = false →
  threads s !! i = Some (NewServerStream ctx (Server_acquire acquire_select)) →
  sem s = 0%nat →
  ctx_Err (ctxs s) ctx = Some e →
  exec [run (Thread i) on_sem; run (Thread i) on_ctx;
        run (Thread i) Go; run (Thread i) Go] s =
    Some (set_thread i (NewServerStream ctx (Server_done None EmptyString (Some e))) s).
Proof.
  intros Hc Ht Hsem He.
  rewrite (exec_cons _ _ _
             (set_thread i (NewServerStream ctx Server_select) (with_sem 1 s))).
  - destruct (accept_on_ctx
                (set_thread i (NewServerStream ctx Server_select) (with_sem 1 s)) i ctx 0 e)
      as [_ ->]; [done|by eapply lookup_set_thread|done|done|].
    f_equal. unfold set_thread. simpl. rewrite list_insert_insert_eq.
    destruct s. simpl in *. by subst.
  - rewrite (step_Thread _ _ _ _ Hc Ht). simpl.
    unfold NewServerStream_step, acquireSemaphore_step. by rewrite Hsem.
Qed.

(** C5.  When the select of NewServerStream takes the case of the
    caller's context or the case of term, the call receives from m.sem
    (the slot it took is free again) and only then returns the error; it
    makes no stream and starts no goroutine: but for the slot and the
    caller's own result the manager is as it was. *)
Theorem C5_accept_interrupted (s : state) (i ctx n : nat) :
  crashed s = false →
  threads s !! i = Some (NewServerStream ctx Server_select) →
  sem s = S n →
  (∀ e, ctx_Err (ctxs s) ctx = Some e →
     exec [run (Thread i) on_ctx; run (Thread i) Go] s =
       Some (set_thread i (NewServerStream ctx Server_ctx_return) (with_sem n s)) ∧
     exec [run (Thread i) on_ctx; run (Thread i) Go; run (Thread i) Go] s =
       Some (set_thread i (NewServerStream ctx (Server_done None EmptyString (Some e)))
               (with_sem n s))) ∧
  (∀ cause, term s = Some cause →
     exec [run (Thread i) on_term; run (Thread i) Go] s =
       Some (set_thread i (NewServerStream ctx Server_term_return) (with_sem n s)) ∧
     exec [run (Thread i) on_term; run (Thread i) Go; run (Thread i) Go] s =
       Some (set_thread i (NewServerStream ctx (Server_done None EmptyString cause))
               (with_sem n s))).
Proof.
  intros Hc Ht Hsem. split; eauto using accept_on_ctx, accept_on_term.
Qed.

Definition server_cancelled : state :=
  Eval vm_compute in
    state_after [make_ctx; call_NewServerStream 0;
                 run (Thread 0) Go; run (Thread 0) Go; run (Thread 0) on_sem;
                 cancel_ctx 0 context_Canceled].

Lemma C5_witness :
  exec [run (Thread 0) on_ctx; run (Thread 0) Go] server_cancelled =
    Some (set_thread 0 (NewServerStream 0 Server_ctx_return) (with_sem 0 server_cancelled)) ∧
  exec [run (Thread 0) on_ctx; run (Thread 0) Go; run (Thread 0) Go] server_cancelled =
    Some (set_thread 0 (NewServerStream 0 (Server_done None EmptyString (Some context_Canceled)))
            (with_sem 0 server_cancelled)).
Proof.
  destruct (C5_accept_interrupted server_cancelled 0 0 0 eq_refl eq_refl eq_refl)
    as [Hctx _].
  exact (Hctx context_Canceled eq_refl).
Defined.

(** *** manageStreamContext *)


Lemma lookup_set_stream (s : state) (k : nat) (st st0 : Stream) :
  streams s !! k = Some st0 → streams (set_stream k st s) !! k = Some st.
Proof.
  intros Hk. simpl. apply list_lookup_insert_eq. by eapply lookup_lt_Some.
Qed.





(** *** The stream of a goroutine *)






(** *** manageStream *)









(** *** m.sid *)






(** ** More of the manager *)

(** *** Workers and their supervisor *)

(** A worker that has not called wg.Done() has its supervisor in
    wg.Wait(), with a counter that is not zero. *)
Definition sup_inv (s : state) : Prop :=
  ∀ j t sup, threads s !! j = Some t → worker_of sup t = 1%nat →
    ∃ ctx k n, threads s !! sup = Some (manageStream ctx k (ms_wait (S n))).

Lemma worker_of_cases (sup : nat) (t : thread) :
  worker_of sup t = 1%nat →
  (∃ ctx k pc, t = manageStreamPackets sup ctx k pc) ∨
  (∃ ctx k pc, t = manageStreamContext sup ctx k pc).
Proof.
  destruct t; simpl; try done; case_decide; try done; subst; eauto.
Qed.

Lemma worker_of_packets (sup ctx k : nat) (pc : mp_pc) :
  match pc with mp_exit | mp_panicked => False | _ => True end →
  worker_of sup (manageStreamPackets sup ctx k pc) = 1%nat.
Proof. simpl. rewrite decide_True by done. by destruct pc. Qed.

Lemma worker_of_context (sup ctx k : nat) (pc : mc_pc) :
  match pc with mc_exit | mc_panicked => False | _ => True end →
  worker_of sup (manageStreamContext sup ctx k pc) = 1%nat.
Proof. simpl. rewrite decide_True by done. by destruct pc. Qed.

Ltac lookup_goal :=
  rewrite ?lookup_app_l
    by (rewrite ?length_insert; eapply lookup_lt_Some; eassumption);
  repeat match goal with
    | |- context [<[?i:=_]> _ !! ?j] =>
        destruct (decide (i = j));
        [subst; simplify_eq;
         rewrite list_lookup_insert_eq
           by (rewrite ?length_insert; eapply lookup_lt_Some; eassumption)
        |try done; rewrite list_lookup_insert_ne by done]
    end.

Lemma sup_inv_step (l : label) (s s' : state) :
  wg_inv s → sup_inv s → step l s = Some s' → sup_inv s'.
Proof.
  intros [Hc Hf] Hs H. unfold sup_inv in *. step_cases H.
  all: intros jq tq supq Hl Hw.
  all: lookup_cases; simpl in *; simplify_eq; repeat case_decide; simplify_eq.
  all: repeat match goal with
       | H : threads _ !! _ = Some (manageStreamPackets ?sq ?c ?k ?pc) |- _ =>
           note (Hs _ _ sq H (worker_of_packets sq c k pc I))
       | H : threads _ !! _ = Some (manageStreamContext ?sq ?c ?k ?pc) |- _ =>
           note (Hs _ _ sq H (worker_of_context sq c k pc I))
       | H : threads _ !! _ = Some ?t, Hw : worker_of _ ?t = 1%nat |- _ =>
           note (Hs _ _ _ H Hw)
       end.
  all: repeat match goal with
       | H : ∃ _, _ |- _ => destruct H
       end; simplify_eq.
  all: try (do 3 eexists; lookup_goal; first [eassumption|reflexivity]).
  all: destruct (decide (sup = supq)) as [->|Hne];
    [pose proof (Hc _ _ _ H2 eq_refl) as Hcount; simpl in Hcount;
     pose proof (count_lookup_two (worker_of supq) _ _ _ _ _ H3 H1 Hl) as Htwo;
     rewrite Hw in Htwo; simpl in Htwo; rewrite decide_True in Htwo by done;
     destruct n0; [lia|];
     do 3 eexists; rewrite list_lookup_insert_eq;
       [reflexivity|rewrite length_insert; by eapply lookup_lt_Some]
    |do 3 eexists; lookup_goal; eassumption].
Qed.

Lemma sup_inv_reachable (s : state) : reachable s → sup_inv s.
Proof.
  revert s. apply reachable_ind.
  - intros j t sup Hj. simpl in Hj. by rewrite lookup_nil in Hj.
  - intros l s s' Hr. apply sup_inv_step. apply (inv_wg _ (inv_reachable _ Hr)).
Qed.


(** The packet worker of supervisor [i] that has not yet called
    wg.Done(): there is one at most. *)
Definition pworker_of (i : nat) (t : thread) : nat :=
  match t with
  | manageStreamPackets sup _ _ pc =>
      if decide (sup = i)
      then match pc with mp_exit | mp_panicked => 0 | _ => 1 end
      else 0
  | _ => 0
  end%nat.

Lemma pworker_worker (i : nat) (t : thread) : (pworker_of i t ≤ worker_of i t)%nat.
Proof. destruct t; simpl; lia. Qed.

Definition pworker_inv (s : state) : Prop :=
  ∀ i, (count (pworker_of i) (threads s) ≤ 1)%nat.

Lemma pworker_inv_step (l : label) (s s' : state) :
  wg_inv s → pworker_inv s → step l s = Some s' → pworker_inv s'.
Proof.
  intros [Hc Hf] Hp H. unfold pworker_inv in *. step_cases H.
  all: intros iq; specialize (Hp iq);
       match type of Hp with
       | (count _ ?ts ≤ 1)%nat =>
           pose proof (count_le (pworker_of iq) (worker_of iq) ts
                         (pworker_worker iq)) as Hle
       end.
  all: repeat match goal with
       | H : threads _ !! ?j = Some ?t |- _ =>
           note (Hc _ _ _ H eq_refl)
       end.
  all: rewrite ?count_app; count_facts (pworker_of iq); count_bounds (pworker_of iq);
       simpl in *; repeat case_decide; simplify_eq; try lia.
Qed.

Lemma pworker_inv_reachable (s : state) : reachable s → pworker_inv s.
Proof.
  revert s. apply reachable_ind.
  - intros i. simpl. lia.
  - intros l s s' Hr. apply pworker_inv_step. apply (inv_wg _ (inv_reachable _ Hr)).
Qed.

(** *** The packet queue *)

(** X1: m.queue has one receiver at most.  The goroutines that can take
    the packet the pump offers are the select of NewServerStream and the
    select of manageStreamPackets; at any moment at most one goroutine is
    at such a select. *)
Theorem queue_one_receiver (s : state) (i j : nat) (si : state) :
  reachable s →
  deliver_step i s = Some si → i ≠ j → deliver_step j s = None.
Proof.
  intros Hr Hi Hij.
  destruct (deliver_step j s) as [sj|] eqn:Hj; [exfalso; revert Hij|done].
  destruct (inv_sem _ (inv_reachable _ Hr)) as [Hh Hcap]. unfold sem_cap in Hcap.
  pose proof (sup_inv_reachable _ Hr) as Hsup.
  pose proof (pworker_inv_reachable _ Hr) as Hpw.
  intros Hne. unfold deliver_step in Hi, Hj.
  destruct (reader s); try done.
  destruct (threads s !! i) as [[|? ? |ci [] | |pi ci ki [] |]|] eqn:Ei; try done;
  destruct (threads s !! j) as [[|? ? |cj [] | |pj cj kj [] |]|] eqn:Ej; try done.
  - pose proof (count_lookup_two holds _ _ _ _ _ Hne Ei Ej) as H2. simpl in H2. lia.
  - destruct (Hsup _ _ pj Ej (worker_of_packets pj cj kj mp_select I)) as (c & k & n & Es).
    assert (i ≠ pj) as Hip by (intros ->; congruence).
    pose proof (count_lookup_two holds _ _ _ _ _ Hip Ei Es) as H2. simpl in H2. lia.
  - destruct (Hsup _ _ pi Ei (worker_of_packets pi ci ki mp_select I)) as (c & k & n & Es).
    assert (j ≠ pi) as Hjp by (intros ->; congruence).
    pose proof (count_lookup_two holds _ _ _ _ _ Hjp Ej Es) as H2. simpl in H2. lia.
  - destruct (Hsup _ _ pi Ei (worker_of_packets pi ci ki mp_select I)) as (c & k & n & Es).
    destruct (Hsup _ _ pj Ej (worker_of_packets pj cj kj mp_select I)) as (c' & k' & n' & Es').
    destruct (decide (pi = pj)) as [->|Hpp].
    + pose proof (count_lookup_two (pworker_of pj) _ _ _ _ _ Hne Ei Ej) as H2.
      simpl in H2. rewrite decide_True in H2 by done. specialize (Hpw pj). lia.
    + pose proof (count_lookup_two holds _ _ _ _ _ Hpp Es Es') as H2. simpl in H2. lia.
Qed.

(** The pump holds a packet and a server call waits for it, while a
    second call has only just been made. *)
Definition server_offered : state :=
  Eval vm_compute in
    state_after [make_ctx; call_NewServerStream 0;
                 run (Thread 0) Go; run (Thread 0) Go; run (Thread 0) on_sem;
                 call_NewServerStream 0;
                 run Reader (Reads invoke_Echo)].

Lemma reachable_server_offered : reachable server_offered.
Proof.
  exists [make_ctx; call_NewServerStream 0;
          run (Thread 0) Go; run (Thread 0) Go; run (Thread 0) on_sem;
          call_NewServerStream 0;
          run Reader (Reads invoke_Echo)].
  vm_compute. reflexivity.
Qed.

Lemma queue_one_receiver_witness :
  is_Some (deliver_step 0 server_offered) ∧ deliver_step 1 server_offered = None.
Proof.
  split; [by eexists|].
  eapply (queue_one_receiver server_offered 0 1);
    [apply reachable_server_offered|reflexivity|discriminate].
Defined.

(** *** Nothing in the clean-up blocks *)

(** X2: the operations by which the goroutines of a stream give back
    what they hold are always enabled: the deferred wg.Done() of a worker
    finds the supervisor's counter above zero, and the receive from m.sem
    (in manageStream and on the two error paths of NewServerStream) finds
    the slot taken. *)
Theorem cleanup_never_blocks (s : state) (i : nat) :
  reachable s → crashed s = false →
  (∀ sup ctx k,
     threads s !! i = Some (manageStreamPackets sup ctx k mp_defer) →
     ∃ c' k' n, threads s !! sup = Some (manageStream c' k' (ms_wait (S n))) ∧
       step (run (Thread i) Go) s =
         Some (set_thread sup (manageStream c' k' (ms_wait n))
                 (set_thread i (manageStreamPackets sup ctx k mp_exit) s))) ∧
  (∀ sup ctx k,
     threads s !! i = Some (manageStreamContext sup ctx k mc_defer) →
     ∃ c' k' n, threads s !! sup = Some (manageStream c' k' (ms_wait (S n))) ∧
       step (run (Thread i) Go) s =
         Some (set_thread sup (manageStream c' k' (ms_wait n))
                 (set_thread i (manageStreamContext sup ctx k mc_exit) s))) ∧
  (∀ ctx k,
     threads s !! i = Some (manageStream ctx k ms_release) →
     sem s = 1%nat ∧
     step (run (Thread i) Go) s =
       Some (set_thread i (manageStream ctx k ms_exit) (with_sem 0 s))) ∧
  (∀ ctx,
     threads s !! i = Some (NewServerStream ctx Server_ctx_release) →
     sem s = 1%nat ∧
     step (run (Thread i) Go) s =
       Some (set_thread i (NewServerStream ctx Server_ctx_return) (with_sem 0 s))) ∧
  (∀ ctx,
     threads s !! i = Some (NewServerStream ctx Server_term_release) →
     sem s = 1%nat ∧
     step (run (Thread i) Go) s =
       Some (set_thread i (NewServerStream ctx Server_term_return) (with_sem 0 s))).
Proof.
  intros Hr Hc.
  destruct (inv_sem _ (inv_reachable _ Hr)) as [Hh Hcap]. unfold sem_cap in Hcap.
  pose proof (sup_inv_reachable _ Hr) as Hsup.
  assert (∀ t, threads s !! i = Some t → holds t = 1%nat → sem s = 1%nat) as Hone.
  { intros t Ht Hholds. pose proof (count_lookup_le holds _ _ _ Ht). lia. }
  split; [|split; [|split; [|split]]].
  - intros sup ctx k Ht.
    destruct (Hsup _ _ sup Ht (worker_of_packets sup ctx k mp_defer I))
      as (c' & k' & n & Es).
    exists c', k', n. split; [done|].
    rewrite (step_Thread _ _ _ _ Hc Ht). simpl. unfold wg_Done. simpl.
    assert (i ≠ sup) by (intros ->; congruence).
    rewrite list_lookup_insert_ne by done. by rewrite Es.
  - intros sup ctx k Ht.
    destruct (Hsup _ _ sup Ht (worker_of_context sup ctx k mc_defer I))
      as (c' & k' & n & Es).
    exists c', k', n. split; [done|].
    rewrite (step_Thread _ _ _ _ Hc Ht). simpl. unfold wg_Done. simpl.
    assert (i ≠ sup) by (intros ->; congruence).
    rewrite list_lookup_insert_ne by done. by rewrite Es.
  - intros ctx k Ht. pose proof (Hone _ Ht eq_refl) as Hs. split; [done|].
    rewrite (step_Thread _ _ _ _ Hc Ht). simpl. by rewrite Hs.
  - intros ctx Ht. pose proof (Hone _ Ht eq_refl) as Hs. split; [done|].
    rewrite (step_Thread _ _ _ _ Hc Ht). simpl. unfold NewServerStream_step.
    by rewrite Hs.
  - intros ctx Ht. pose proof (Hone _ Ht eq_refl) as Hs. split; [done|].
    rewrite (step_Thread _ _ _ _ Hc Ht). simpl. unfold NewServerStream_step.
    by rewrite Hs.
Qed.

Definition supervisor_releasing : state :=
  Eval vm_compute in
    state_after
      [make_ctx; call_NewClientStream 0;
       run (Thread 0) Go; run (Thread 0) Go; run (Thread 0) on_sem;
       run (Thread 0) Go; run (Thread 0) Go; run (Thread 0) Go;
       run (Thread 1) Go; use_stream 0 Closed;
       run (Thread 2) on_terminated; run (Thread 2) Go;
       run (Thread 3) on_terminated; run (Thread 3) Go;
       run (Thread 1) Go; run (Thread 1) Go].

Lemma reachable_supervisor_releasing : reachable supervisor_releasing.
Proof.
  exists [make_ctx; call_NewClientStream 0;
          run (Thread 0) Go; run (Thread 0) Go; run (Thread 0) on_sem;
          run (Thread 0) Go; run (Thread 0) Go; run (Thread 0) Go;
          run (Thread 1) Go; use_stream 0 Closed;
          run (Thread 2) on_terminated; run (Thread 2) Go;
          run (Thread 3) on_terminated; run (Thread 3) Go;
          run (Thread 1) Go; run (Thread 1) Go].
  vm_compute. reflexivity.
Qed.

Lemma cleanup_never_blocks_witness :
  sem supervisor_releasing = 1%nat ∧
  step (run (Thread 1) Go) supervisor_releasing =
    Some (set_thread 1 (manageStream 0 0 ms_exit) (with_sem 0 supervisor_releasing)).
Proof.
  destruct (cleanup_never_blocks supervisor_releasing 1
              reachable_supervisor_releasing eq_refl) as (_ & _ & Hrel & _).
  exact (Hrel 0%nat 0%nat eq_refl).
Defined.

(** *** Closed, and the cause of termination *)

(** Closed: return m.term.IsSet(). *)
Definition Manager_Closed (s : state) : bool := IsSet (term s).

Lemma extends_trans (s1 s2 s3 : state) :
  extends s1 s2 → extends s2 s3 → extends s1 s3.
Proof.
  intros [Ht1 Hr1 Hp1 Ho1 Hc1 Hl1 Hs1] [Ht2 Hr2 Hp2 Ho2 Hc2 Hl2 Hs2].
  split; eauto; try lia.
  intros k st Hk. destruct (Hs1 _ _ Hk) as (st' & Hk' & Hle).
  destruct (Hs2 _ _ Hk') as (st'' & Hk'' & Hle').
  exists st''. split; [done|].
  destruct Hle as (? & ? & Hc & Ht), Hle' as (? & ? & Hc' & Ht').
  repeat split; try congruence; [by eauto|].
  intros Hterm. rewrite Ht', Ht; [done|done|].
  unfold Terminated in *. by rewrite (Ht Hterm).
Qed.

Lemma exec_extends (ls : list label) (s s' : state) :
  exec ls s = Some s' → extends s s'.
Proof.
  revert s. induction ls as [|l ls IH]; intros s H; simpl in H.
  - simplify_eq. apply extends_refl.
  - destruct (step l s) as [s1|] eqn:Hs1; [|done].
    eapply extends_trans; [by eapply step_extends|by apply IH].
Qed.

(** X3: once Closed() reports true it reports true for ever, and the
    cause of the termination is the one of the first call of term.Set:
    whatever runs later, a later fatal event does not replace it. *)
Theorem Closed_is_stable (ls : list label) (s s' : state) :
  exec ls s = Some s' →
  Manager_Closed s = true →
  Manager_Closed s' = true ∧ Err (term s') = Err (term s).
Proof.
  intros Hex Hcl. destruct (exec_extends _ _ _ Hex) as [Hterm _ _ _ _ _ _].
  unfold Manager_Closed in *. destruct (term s) as [e|] eqn:He; [|done].
  by rewrite (Hterm _ eq_refl).
Qed.

(** A read error, then a call of Close: the cause stays the read error. *)
Definition read_fails_then_Close : list label :=
  [call_Close; run (Thread 0) Go; run (Thread 0) Go;
   run Transport Go; run Transport (Closes nil); run Transport Go].

Definition read_failed : state :=
  Eval vm_compute in
    state_after [run Reader (Read_fails (foreign 3)); run Reader Go].

Lemma Closed_is_stable_witness :
  ∃ s', exec read_fails_then_Close read_failed = Some s' ∧
        Manager_Closed s' = true ∧
        Err (term s') = Some (Wrap (foreign 3)).
Proof.
  destruct (exec read_fails_then_Close read_failed) as [s'|] eqn:Hs';
    [|vm_compute in Hs'; discriminate].
  destruct (Closed_is_stable _ _ _ Hs' eq_refl) as [Hcl He].
  exists s'. split; [reflexivity|]. split; [exact Hcl|exact He].
Defined.

(** *** manageTransport *)

(** X4: the transport is closed by manageTransport alone, once, and only
    after term is set; tport is set only after that call, to the value it
    returned. *)
Theorem transport_closed_once (s : state) :
  reachable s →
  (tr s ≠ None → IsSet (term s)) ∧
  (∀ r, tport s = Some r → tr s = Some r) ∧
  (∀ c s', step (run Transport c) s = Some s' → tr s' ≠ tr s →
     tr s = None ∧ IsSet (term s) ∧ ∃ r, c = Closes r ∧ tr s' = Some r) ∧
  (∀ l s', step l s = Some s' → tr s' ≠ tr s → ∃ c, l = run Transport c).
Proof.
  intros Hr. pose proof (li_transport _ (inv_local _ (inv_reachable _ Hr))) as Ht.
  unfold transport_ok in Ht.
  split; [|split; [|split]].
  - intros Htr.
    destruct (transport s); [by destruct Ht|by destruct Ht..].
  - intros r Hr'.
    destruct (transport s);
      [destruct Ht as [? _]|destruct Ht as (_ & ? & _)
      |destruct Ht as (_ & ? & _)|destruct Ht as (_ & r' & ? & ?)]; congruence.
  - intros c s' H Hne. unfold step, live_step in H.
    destruct (crashed s); [done|]. unfold manageTransport_step in H.
    destruct (transport s) eqn:Epc.
    + destruct c; try done. destruct (IsSet (term s)); by simplify_eq.
    + destruct c; try done. simplify_eq/=. destruct Ht as (? & ? & ?). eauto 6.
    + destruct c; try done. by simplify_eq.
    + by destruct c.
  - intros l s' H Hne. step_cases H; try done; eauto.
Qed.

Lemma transport_closed_once_witness :
  tr closed_twice = Some nil ∧ IsSet (term closed_twice).
Proof.
  destruct (transport_closed_once closed_twice reachable_closed_twice)
    as (Hterm & Htp & _).
  split; [exact (Htp nil eq_refl)|apply Hterm; discriminate].
Defined.

(** *** acquireSemaphore *)

(** X5: a call that leaves acquireSemaphore with nil has sent on m.sem.
    The select has a second way to return nil on paper, the case of term
    with a nil m.term.Err(); no call of term.Set passes nil, so in a
    reachable state that case always returns an error. *)
Theorem acquire_nil_means_slot (s s' : state) (i ctx : nat) (a : acquire_pc) (c : choice) :
  reachable s →
  step (run (Thread i) c) s = Some s' →
  (threads s !! i = Some (NewClientStream ctx (Client_acquire a)) →
   threads s' !! i = Some (NewClientStream ctx Client_sid_load) →
   a = acquire_select ∧ c = on_sem ∧ sem s = 0%nat ∧ sem s' = 1%nat) ∧
  (threads s !! i = Some (NewServerStream ctx (Server_acquire a)) →
   threads s' !! i = Some (NewServerStream ctx Server_select) →
   a = acquire_select ∧ c = on_sem ∧ sem s = 0%nat ∧ sem s' = 1%nat).
Proof.
  intros Hr H. pose proof (li_term _ (inv_local _ (inv_reachable _ Hr))) as Hterm.
  split; intros Ht Ht'.
  - unfold step, live_step in H. destruct (crashed s); [done|].
    rewrite Ht in H. simpl in H.
    unfold NewClientStream_step, acquireSemaphore_step in H.
    assert (i < length (threads s))%nat by (by eapply lookup_lt_Some).
    repeat (case_match; simplify_eq/=; try done);
      rewrite ?list_lookup_insert_eq in Ht' by done; simplify_eq.
    use_guards. repeat split; lia.
  - unfold step, live_step in H. destruct (crashed s); [done|].
    rewrite Ht in H. simpl in H.
    unfold NewServerStream_step, acquireSemaphore_step in H.
    assert (i < length (threads s))%nat by (by eapply lookup_lt_Some).
    repeat (case_match; simplify_eq/=; try done);
      rewrite ?list_lookup_insert_eq in Ht' by done; simplify_eq.
    use_guards. repeat split; lia.
Qed.

Definition client_polled : state :=
  Eval vm_compute in
    state_after [make_ctx; call_NewClientStream 0;
                 run (Thread 0) Go; run (Thread 0) Go].

Lemma reachable_client_polled : reachable client_polled.
Proof.
  exists [make_ctx; call_NewClientStream 0; run (Thread 0) Go; run (Thread 0) Go].
  vm_compute. reflexivity.
Qed.

Lemma acquire_nil_means_slot_witness :
  sem client_polled = 0%nat ∧
  ∃ s', step (run (Thread 0) on_sem) client_polled = Some s' ∧ sem s' = 1%nat.
Proof.
  destruct (step (run (Thread 0) on_sem) client_polled) as [s'|] eqn:Hs';
    [|vm_compute in Hs'; discriminate].
  destruct (acquire_nil_means_slot client_polled s' 0 0 acquire_select on_sem
              reachable_client_polled Hs') as [Hcl _].
  destruct Hcl as (_ & _ & H0 & H1); [reflexivity| |].
  - vm_compute in Hs'. injection Hs' as <-. reflexivity.
  - split; [exact H0|]. exists s'. split; [reflexivity|exact H1].
Defined.

(** *** NewClientStream, the path of success *)



(** *** manageStreamPackets *)





(** *** Close and the live stream *)



(** X8: Close passes its send on m.sem only when no stream is live: while
    a supervisor has not released the slot (or a call of NewClientStream
    or NewServerStream holds it) the send blocks. *)
Theorem Close_waits_for_stream (s : state) (i j : nat) (t : thread) :
  reachable s → crashed s = false →
  threads s !! i = Some (Close Close_sem_send) →
  (threads s !! j = Some t → holds t = 1%nat →
     step (run (Thread i) Go) s = None) ∧
  (∀ s', step (run (Thread i) Go) s = Some s' →
     count live (threads s) = 0%nat ∧ sem s = 0%nat ∧ sem s' = 1%nat ∧
     count live (threads s') = 0%nat).
Proof.
  intros Hr Hc Ht.
  destruct (inv_sem _ (inv_reachable _ Hr)) as [Hh Hcap]. unfold sem_cap in Hcap.
  pose proof (count_le live holds (threads s) live_holds) as Hlive.
  rewrite (step_Thread _ _ _ _ Hc Ht). simpl. split.
  - intros Hj Hholds. pose proof (count_lookup_le holds _ _ _ Hj) as Hle.
    destruct (sem s) eqn:Hs; [lia|done].
  - intros s' H. destruct (sem s) eqn:Hs; [|done]. simplify_eq/=.
    pose proof (count_insert live _ _ _ (Close Close_read_wait) Ht) as Hins.
    simpl in Hins. split; [lia|]. split; [done|]. split; [done|]. lia.
Qed.

Definition Close_at_sem : state :=
  Eval vm_compute in
    state_after [make_ctx; call_NewClientStream 0;
                 run (Thread 0) Go; run (Thread 0) Go; run (Thread 0) on_sem;
                 run (Thread 0) Go; run (Thread 0) Go; run (Thread 0) Go;
                 run (Thread 1) Go; call_Close;
                 run (Thread 4) Go; run (Thread 4) Go;
                 run Transport Go; run Transport (Closes nil); run Transport Go;
                 run (Thread 4) Go].

Lemma reachable_Close_at_sem : reachable Close_at_sem.
Proof.
  exists [make_ctx; call_NewClientStream 0;
          run (Thread 0) Go; run (Thread 0) Go; run (Thread 0) on_sem;
          run (Thread 0) Go; run (Thread 0) Go; run (Thread 0) Go;
          run (Thread 1) Go; call_Close;
          run (Thread 4) Go; run (Thread 4) Go;
          run Transport Go; run Transport (Closes nil); run Transport Go;
          run (Thread 4) Go].
  vm_compute. reflexivity.
Qed.

Lemma Close_waits_for_stream_witness :
  threads Close_at_sem !! 1%nat = Some (manageStream 0 0 (ms_wait 2)) ∧
  step (run (Thread 4) Go) Close_at_sem = None.
Proof.
  split; [reflexivity|].
  destruct (Close_waits_for_stream Close_at_sem 4 1 (manageStream 0 0 (ms_wait 2))
              reachable_Close_at_sem eq_refl eq_refl) as [Hblock _].
  exact (Hblock eq_refl eq_refl).
Defined.




(** *** Close on an idle manager *)

Lemma state_ext (s s' : state) :
  sid s = sid s' → sem s = sem s' → term s = term s' → read s = read s' →
  tport s = tport s' → once s = once s' → tr s = tr s' →
  transport s = transport s' → reader s = reader s' → threads s = threads s' →
  ctxs s = ctxs s' → streams s = streams s' → crashed s = crashed s' →
  s = s'.
Proof. destruct s, s'. simpl. by intros -> -> -> -> -> -> -> -> -> -> -> -> ->. Qed.

Lemma insert_last (ts : list thread) (t t' : thread) :
  <[length ts:=t']> (ts ++ [t]) = ts ++ [t'].
Proof. rewrite insert_app_r_alt by lia. by rewrite Nat.sub_diag. Qed.

Ltac idle_step :=
  unfold step, live_step; simpl;
  rewrite ?list_lookup_middle by done; simpl;
  unfold set_thread; simpl; rewrite ?insert_last; reflexivity.

(** X10: on a manager with no stream and nothing yet terminated, a call
    of Close runs to its end and returns what tr.Close() returned, once
    the transport supervisor has closed the transport and the pump's
    pending read has failed.  The cause of termination stays
    managerClosed: the read error comes second. *)
Theorem Close_returns_when_idle (s : state) (r : goerror) (e : error) :
  crashed s = false → once s = once_fresh → transport s = mt_wait →
  reader s = mr_ReadPacket → sem s = 0%nat →
  term s = None → tport s = None → read s = None →
  exec [call_Close;
        run (Thread (length (threads s))) Go; run (Thread (length (threads s))) Go;
        run Transport Go; run Transport (Closes r); run Transport Go;
        run (Thread (length (threads s))) Go; run (Thread (length (threads s))) Go;
        run Reader (Read_fails e); run Reader Go; run Reader Go;
        run (Thread (length (threads s))) Go; run (Thread (length (threads s))) Go] s =
    Some (mkState (sid s) 1 (Some (Some managerClosed)) (Some (Some managerClosed))
            (Some r) once_done (Some r) mt_exit mr_exit
            (threads s ++ [Close (Close_done true r)]) (ctxs s) (streams s) false).
Proof.
  destruct s as [sid0 sem0 term0 read0 tport0 once0 tr0 tp0 rd0 ts cs ss cr].
  cbn [crashed once transport reader sem term tport read sid threads ctxs streams].
  intros -> -> -> -> -> -> -> ->.
  pose (C := λ sem term read tport once tr tp rd pc,
          mkState sid0 sem term read tport once tr tp rd (ts ++ [Close pc]) cs ss false).
  pose (mC := Some (Some managerClosed) : Signal).
  assert (∀ l ls s1 s2 r', step l s1 = Some s2 → exec ls s2 = r' → exec (l :: ls) s1 = r')
    as Hcons by (intros l ls s1 s2 r' H1 H2; by rewrite (exec_cons _ _ _ _ H1)).
  apply (Hcons _ _ _ (C 0%nat None None None once_fresh tr0 mt_wait mr_ReadPacket Close_once));
    [idle_step|].
  apply (Hcons _ _ _ (C 0%nat None None None once_running tr0 mt_wait mr_ReadPacket Close_term_Set));
    [idle_step|].
  apply (Hcons _ _ _ (C 0%nat mC None None once_running tr0 mt_wait mr_ReadPacket Close_tport_wait));
    [idle_step|].
  apply (Hcons _ _ _ (C 0%nat mC None None once_running tr0 mt_Close mr_ReadPacket Close_tport_wait));
    [idle_step|].
  apply (Hcons _ _ _ (C 0%nat mC None None once_running (Some r) (mt_Set r) mr_ReadPacket Close_tport_wait));
    [idle_step|].
  apply (Hcons _ _ _ (C 0%nat mC None (Some r) once_running (Some r) mt_exit mr_ReadPacket Close_tport_wait));
    [idle_step|].
  apply (Hcons _ _ _ (C 0%nat mC None (Some r) once_running (Some r) mt_exit mr_ReadPacket Close_sem_send));
    [idle_step|].
  apply (Hcons _ _ _ (C 1%nat mC None (Some r) once_running (Some r) mt_exit mr_ReadPacket Close_read_wait));
    [idle_step|].
  apply (Hcons _ _ _ (C 1%nat mC None (Some r) once_running (Some r) mt_exit (mr_term_Set e) Close_read_wait));
    [idle_step|].
  apply (Hcons _ _ _ (C 1%nat mC None (Some r) once_running (Some r) mt_exit mr_defer Close_read_wait));
    [idle_step|].
  apply (Hcons _ _ _ (C 1%nat mC mC (Some r) once_running (Some r) mt_exit mr_exit Close_read_wait));
    [idle_step|].
  apply (Hcons _ _ _ (C 1%nat mC mC (Some r) once_done (Some r) mt_exit mr_exit (Close_return true)));
    [idle_step|].
  apply (Hcons _ _ _ (C 1%nat mC mC (Some r) once_done (Some r) mt_exit mr_exit (Close_done true r)));
    [idle_step|].
  reflexivity.
Qed.

Lemma Close_returns_when_idle_witness :
  exec [call_Close;
        run (Thread 0) Go; run (Thread 0) Go;
        run Transport Go; run Transport (Closes (Some (foreign 9))); run Transport Go;
        run (Thread 0) Go; run (Thread 0) Go;
        run Reader (Read_fails (foreign 1)); run Reader Go; run Reader Go;
        run (Thread 0) Go; run (Thread 0) Go] New =
    Some (mkState 0 1 (Some (Some managerClosed)) (Some (Some managerClosed))
            (Some (Some (foreign 9))) once_done (Some (Some (foreign 9))) mt_exit mr_exit
            [Close (Close_done true (Some (foreign 9)))] [] [] false).
Proof.
  apply (Close_returns_when_idle New (Some (foreign 9)) (foreign 1)); reflexivity.
Defined.

(** *** The wait group of manageStream *)

(** X11: the counter of a supervisor's wait group is the number of its
    workers that have not run their deferred wg.Done(): 0 before the
    workers are started, at most 2 while it waits, 0 from the moment
    wg.Wait() returns; a worker that ended, by return or by panic, is no
    longer counted. *)
Theorem wait_group_counts_workers (s : state) (i ctx k : nat) (pc : ms_pc) :
  reachable s →
  threads s !! i = Some (manageStream ctx k pc) →
  count (worker_of i) (threads s) = match pc with ms_wait n => n | _ => 0%nat end ∧
  (∀ j sup c' k',
     threads s !! j = Some (manageStreamPackets sup c' k' mp_exit) ∨
     threads s !! j = Some (manageStreamPackets sup c' k' mp_panicked) ∨
     threads s !! j = Some (manageStreamContext sup c' k' mc_exit) ∨
     threads s !! j = Some (manageStreamContext sup c' k' mc_panicked) →
     ∀ t, threads s !! j = Some t → worker_of i t = 0%nat).
Proof.
  intros Hr Ht. split.
  - by apply (wg_count _ (inv_wg _ (inv_reachable _ Hr)) _ _ _ Ht).
  - intros j sup c' k' Hj t Hjt.
    destruct Hj as [Hj|[Hj|[Hj|Hj]]]; rewrite Hj in Hjt; simplify_eq; simpl;
      by case_decide.
Qed.

Lemma wait_group_counts_workers_witness :
  count (worker_of 1) (threads Close_at_sem) = 2%nat.
Proof.
  destruct (wait_group_counts_workers Close_at_sem 1 0 0 (ms_wait 2)
              reachable_Close_at_sem eq_refl) as [Hcount _].
  exact Hcount.
Defined.

(** * storj.io/storj/storage: iterator.go *)

Module storage.

(** Modelled from the spec: ListItem is declared outside the sources at
    hand; iterator.go reads and writes its fields Key and IsPrefix, and
    Value stands for the payload that a composite literal leaves at its
    zero value. *)
Record ListItem := mkListItem {
  Key : list byte;
  Value : list byte;
  IsPrefix : bool
}.

(** Go's bytes.Equal, bytes.HasPrefix and bytes.IndexByte. *)
Fixpoint Equal (a b : list byte) : bool :=
  match a, b with
  | [], [] => true
  | x :: a, y :: b => Byte.eqb x y && Equal a b
  | _, _ => false
  end.

Definition HasPrefix (s prefix : list byte) : bool :=
  (length prefix <=? length s)%nat && Equal (take (length prefix) s) prefix.

Fixpoint IndexByte (b : list byte) (c : byte) : Z :=
  match b with
  | [] => -1
  | x :: b =>
      if Byte.eqb x c then 0
      else let p := IndexByte b c in if p <? 0 then -1 else p + 1
  end.

(** A slice Items: the cells of its backing array from the slice's first
    element up to its capacity, and its length. *)
Record Items := mkItems {
  array : list ListItem;
  len : nat
}.

Definition elements (items : Items) : list ListItem :=
  take (len items) (array items).

(** The loops of SelectPrefixed and SortAndCollapse read items while they
    append to result := items[:0], a slice of the same backing array.
    [cells] is that array; [moved] is None while result is a slice of it
    and Some own once append has had to give result an array of its own. *)
Record loop := mkLoop {
  cells : list ListItem;
  moved : option (list ListItem);
  result_len : nat
}.

Definition append (l : loop) (x : ListItem) : loop :=
  match moved l with
  | None =>
      if (result_len l <? length (cells l))%nat
      then mkLoop (<[result_len l := x]> (cells l)) None (S (result_len l))
      else mkLoop (cells l) (Some (take (result_len l) (cells l) ++ [x]))
                  (S (result_len l))
  | Some own => mkLoop (cells l) (Some (own ++ [x])) (S (result_len l))
  end.

Definition result (l : loop) : list ListItem :=
  match moved l with
  | None => take (result_len l) (cells l)
  | Some own => own
  end.

(** for _, item := range items: [n] iterations are left, the next one
    reads items[i] from the backing array as it is by then. An index
    beyond the array is a run-time panic (None), as is a panic of the
    body. *)
Fixpoint range {A : Type} (backing : A → list ListItem)
    (body : A → ListItem → option A) (n i : nat) (st : A) : option A :=
  match n with
  | O => Some st
  | S n =>
      match backing st !! i with
      | None => None
      | Some item =>
          match body st item with
          | None => None
          | Some st' => range backing body n (S i) st'
          end
      end
  end.

Definition SelectPrefixed (items : Items) (prefix : list byte) : option loop :=
  range cells
        (λ l item,
           Some (if HasPrefix (Key item) prefix then append l item else l))
        (len items) 0 (mkLoop (array items) None 0).

(** StaticIterator.Next; the item behind the pointer is passed in and
    returned. A negative Index passes the length test and panics at the
    index expression (None). *)
Record StaticIterator := mkStaticIterator {
  it_Items : list ListItem;
  Index : Z
}.

Definition Next (it : StaticIterator) (item : ListItem)
  : option (StaticIterator * ListItem * bool) :=
  if Z.of_nat (length (it_Items it)) <=? Index it then Some (it, item, false)
  else if Index it <? 0 then None
  else match it_Items it !! Z.to_nat (Index it) with
       | None => None
       | Some x => Some (mkStaticIterator (it_Items it) (Index it + 1), x, true)
       end.

(** A caller's loop for it.Next(ctx, &item) { ... }: the items seen until
    Next returns false, with the iterator and the item as they are left. *)
Fixpoint drain (fuel : nat) (it : StaticIterator) (item : ListItem)
  : option (list ListItem * StaticIterator * ListItem) :=
  match fuel with
  | O => None
  | S fuel =>
      match Next it item with
      | None => None
      | Some (it', item', false) => Some ([], it', item')
      | Some (it', item', true) =>
          match drain fuel it' item' with
          | None => None
          | Some (seen, it'', item'') => Some (item' :: seen, it'', item'')
          end
      end
  end.

Section SortAndCollapse.

(** The constant storage.Delimiter, declared outside the sources at hand. *)
Variable Delimiter : byte.

(** The state of the loop of SortAndCollapse. *)
Record collapse := mkCollapse {
  out : loop;
  currentPrefix : list byte;
  prefixed : bool
}.

(** One iteration; None is the panic of item.Key[len(prefix):] on a key
    shorter than the prefix. *)
Definition collapse_body (prefix : list byte) (st : collapse)
    (item : ListItem) : option collapse :=
  if prefixed st && HasPrefix (Key item) (currentPrefix st) then Some st
  else if (length (Key item) <? length prefix)%nat then None
  else
    let p := IndexByte (drop (length prefix) (Key item)) Delimiter in
    if 0 <=? p then
      let cp := take (length prefix + Z.to_nat p + 1) (Key item) in
      Some (mkCollapse (append (out st) (mkListItem cp [] true)) cp true)
    else
      Some (mkCollapse (append (out st) item) (currentPrefix st) false).

(** SortAndCollapse after its first statement: [items] is the slice as
    sort.Sort(items) has left it. *)
Definition SortAndCollapse_loop (items : Items) (prefix : list byte)
  : option collapse :=
  range (λ st, cells (out st)) (collapse_body prefix) (len items) 0
        (mkCollapse (mkLoop (array items) None 0) [] false).

End SortAndCollapse.

(** ** Facts about the byte functions *)

Lemma Equal_eq (a b : list byte) : Equal a b = true ↔ a = b.
Proof.
  revert b. induction a as [|x a IH]; intros [|y b]; simpl; try done.
  rewrite andb_true_iff, IH. split.
  - intros [H ->]. by rewrite (Byte.byte_dec_bl _ _ H).
  - intros [= -> ->]. split; [|done]. by apply Byte.byte_dec_lb.
Qed.

Lemma HasPrefix_app (s prefix : list byte) :
  HasPrefix s prefix = true ↔ ∃ t, s = prefix ++ t.
Proof.
  unfold HasPrefix. rewrite andb_true_iff, Nat.leb_le, Equal_eq. split.
  - intros [_ H]. exists (drop (length prefix) s).
    by rewrite <- H at 1; rewrite take_drop.
  - intros [t ->]. rewrite length_app. split; [lia|].
    by rewrite take_app_length.
Qed.

Lemma HasPrefix_take (s : list byte) (n : nat) : HasPrefix s (take n s) = true.
Proof. apply HasPrefix_app. exists (drop n s). by rewrite take_drop. Qed.

Lemma IndexByte_range (b : list byte) (c : byte) :
  IndexByte b c = -1 ∨ 0 ≤ IndexByte b c < Z.of_nat (length b).
Proof.
  induction b as [|x b IH]; simpl; [by left|].
  destruct (Byte.eqb x c); [right; lia|].
  destruct (Z.ltb_spec (IndexByte b c) 0); [by left|right; lia].
Qed.

Lemma IndexByte_found (b : list byte) (c : byte) :
  0 ≤ IndexByte b c →
  ∃ seg rest, b = seg ++ c :: rest ∧ (c ∉ seg) ∧
              length seg = Z.to_nat (IndexByte b c).
Proof.
  induction b as [|x b IH]; simpl; [lia|].
  destruct (Byte.eqb x c) eqn:E.
  - intros _. apply Byte.byte_dec_bl in E as ->.
    exists [], b. split; [done|]. split; [apply not_elem_of_nil|done].
  - destruct (Z.ltb_spec (IndexByte b c) 0); [lia|]. intros _.
    destruct IH as (seg & rest & -> & Hseg & Hlen); [done|].
    exists (x :: seg), rest. split; [done|]. split.
    + apply not_elem_of_cons. split; [|done].
      intros ->. by rewrite (Byte.byte_dec_lb eq_refl) in E.
    + simpl. lia.
Qed.

Lemma IndexByte_absent (b : list byte) (c : byte) :
  ¬ (0 ≤ IndexByte b c) → c ∉ b.
Proof.
  induction b as [|x b IH]; simpl; [intros _; apply not_elem_of_nil|].
  destruct (Byte.eqb x c) eqn:E; [lia|].
  destruct (Z.ltb_spec (IndexByte b c) 0) as [Hn|Hn]; [|lia]. intros _.
  apply not_elem_of_cons. split.
  - intros ->. by rewrite (Byte.byte_dec_lb eq_refl) in E.
  - apply IH. lia.
Qed.

(** ** Appending to a slice of the array that is being read *)

Definition shares (a : list ListItem) (i : nat) (l : loop) : Prop :=
  moved l = None ∧ (result_len l ≤ i)%nat ∧ length (cells l) = length a ∧
  drop (result_len l) (cells l) = drop (result_len l) a.

Lemma shares_start (a : list ListItem) : shares a 0 (mkLoop a None 0).
Proof. by repeat split. Qed.

Lemma shares_read (a : list ListItem) (i : nat) (l : loop) :
  shares a i l → cells l !! i = a !! i.
Proof.
  intros (_ & Hj & _ & Hd).
  replace i with (result_len l + (i - result_len l))%nat by lia.
  by rewrite <- !lookup_drop, Hd.
Qed.

Lemma shares_skip (a : list ListItem) (i : nat) (l : loop) :
  shares a i l → shares a (S i) l.
Proof. intros (? & ? & ? & ?). repeat split; [done|lia|done|done]. Qed.

Lemma shares_cells (a : list ListItem) (i : nat) (l : loop) :
  shares a i l → cells l = result l ++ drop (result_len l) a.
Proof.
  intros (Hm & _ & _ & Hd). unfold result. rewrite Hm, <- Hd.
  by rewrite take_drop.
Qed.

Lemma shares_result_length (a : list ListItem) (i : nat) (l : loop) :
  shares a i l → (i ≤ length a)%nat → length (result l) = result_len l.
Proof.
  intros (Hm & Hj & Hl & _) Hi. unfold result. rewrite Hm, length_take. lia.
Qed.

Lemma shares_append (a : list ListItem) (i : nat) (l : loop) (x : ListItem) :
  shares a i l → (i < length a)%nat →
  shares a (S i) (append l x) ∧ result (append l x) = result l ++ [x].
Proof.
  intros (Hm & Hj & Hl & Hd) Hi. unfold append, result. rewrite Hm.
  destruct (Nat.ltb_spec (result_len l) (length (cells l))) as [Hlt|]; [|lia].
  simpl. split; [repeat split; simpl|].
  - lia.
  - by rewrite length_insert.
  - rewrite drop_insert_lt by lia.
    replace (S (result_len l)) with (result_len l + 1)%nat by lia.
    by rewrite <- !drop_drop, Hd.
  - rewrite (take_S_r _ _ x).
    + by rewrite take_insert_ge by lia.
    + apply list_lookup_insert_eq. lia.
Qed.

(** ** SelectPrefixed *)

Lemma SelectPrefixed_range (a : list ListItem) (prefix : list byte)
    (n i : nat) (l : loop) :
  shares a i l → (i + n ≤ length a)%nat →
  result l = List.filter (λ x, HasPrefix (Key x) prefix) (take i a) →
  ∃ l', range cells
          (λ l item,
             Some (if HasPrefix (Key item) prefix then append l item else l))
          n i l = Some l' ∧
        shares a (i + n) l' ∧
        result l' = List.filter (λ x, HasPrefix (Key x) prefix)
                                (take (i + n) a).
Proof.
  revert i l. induction n as [|n IH]; intros i l Hs Hn Hr; simpl.
  - exists l. by rewrite Nat.add_0_r.
  - rewrite (shares_read _ _ _ Hs).
    destruct (lookup_lt_is_Some_2 a i) as [item Hi]; [lia|]. rewrite Hi.
    replace (i + S n)%nat with (S i + n)%nat by lia.
    destruct (shares_append a i l item Hs) as [Ha Hra]; [lia|].
    apply IH; [| lia |]; rewrite ?(take_S_r _ _ _ Hi), ?List.filter_app; simpl;
      destruct (HasPrefix (Key item) prefix).
    + done.
    + by apply shares_skip.
    + by rewrite <- Hr.
    + by rewrite app_nil_r.
Qed.

(** X12: SelectPrefixed filters in place. Its result is the items whose key
    starts with the prefix, in their order and with their multiplicity; it
    is a slice of the caller's backing array (append never has to move
    it), so the array afterwards holds the result followed by the cells
    the loop did not overwrite. *)
Theorem SelectPrefixed_in_place (items : Items) (prefix : list byte) :
  (len items ≤ length (array items))%nat →
  ∃ l, SelectPrefixed items prefix = Some l ∧
       moved l = None ∧
       result l = List.filter (λ x, HasPrefix (Key x) prefix) (elements items) ∧
       cells l = result l ++ drop (length (result l)) (array items).
Proof.
  intros Hlen.
  destruct (SelectPrefixed_range (array items) prefix (len items) 0
              (mkLoop (array items) None 0)) as (l & Hl & Hs & Hr);
    [apply shares_start | simpl; lia | done |].
  exists l. split; [done|]. split; [apply Hs|]. split; [done|].
  rewrite (shares_result_length _ _ _ Hs) by (simpl; lia).
  by apply shares_cells with (0 + len items)%nat.
Qed.

Definition item (key : string) : ListItem :=
  mkListItem (list_byte_of_string key) [] false.

Lemma SelectPrefixed_in_place_witness :
  ∃ l, SelectPrefixed (mkItems [item "a/x"; item "b"; item "a/y"; item "z"] 3)
                      (list_byte_of_string "a/") = Some l ∧
       moved l = None ∧
       result l = [item "a/x"; item "a/y"] ∧
       cells l = [item "a/x"; item "a/y"; item "a/y"; item "z"].
Proof.
  destruct (SelectPrefixed_in_place
              (mkItems [item "a/x"; item "b"; item "a/y"; item "z"] 3)
              (list_byte_of_string "a/")) as (l & Hl & Hm & Hr & Hc);
    [simpl; lia|].
  exists l. split; [done|]. split; [done|]. split; [exact Hr|].
  rewrite Hc, Hr. reflexivity.
Defined.

(** ** StaticIterator *)

Lemma default_last_cons {A : Type} (d x : A) (l : list A) :
  default d (last (x :: l)) = default x (last l).
Proof. rewrite last_cons. by destruct (last l). Qed.

(** X13: a loop over StaticIterator.Next, started at an index that is not
    negative, sees exactly the items from that index on, in order, and
    stops; it leaves Index at the length (or where it was, if already
    beyond) and the caller's item at the last item seen (untouched if
    there was none), and every later call returns false and changes
    nothing. *)
Theorem StaticIterator_drain (it : StaticIterator) (x : ListItem)
    (fuel : nat) :
  0 ≤ Index it →
  (length (it_Items it) - Z.to_nat (Index it) < fuel)%nat →
  let seen := drop (Z.to_nat (Index it)) (it_Items it) in
  let it' := mkStaticIterator (it_Items it)
               (Z.max (Index it) (Z.of_nat (length (it_Items it)))) in
  let x' := default x (last seen) in
  drain fuel it x = Some (seen, it', x') ∧
  Next it' x' = Some (it', x', false).
Proof.
  intros H0 Hfuel seen it' x'. split.
  - subst seen it' x'. revert it x H0 Hfuel.
    induction fuel as [|fuel IH]; intros [xs ix] x H0 Hfuel; simpl in *; [lia|].
    unfold Next. simpl.
    destruct (Z.leb_spec (Z.of_nat (length xs)) ix) as [Hge|Hlt].
    + rewrite drop_ge by lia. simpl. by rewrite Z.max_l by lia.
    + destruct (Z.ltb_spec ix 0); [lia|].
      destruct (lookup_lt_is_Some_2 xs (Z.to_nat ix)) as [y Hy]; [lia|].
      rewrite Hy, IH by (simpl; lia). simpl.
      replace (Z.to_nat (ix + 1)) with (S (Z.to_nat ix)) by lia.
      rewrite (drop_S _ _ _ Hy), default_last_cons.
      by rewrite !Z.max_r by lia.
  - subst it'. unfold Next. simpl.
    destruct (Z.leb_spec (Z.of_nat (length (it_Items it)))
                (Z.max (Index it) (Z.of_nat (length (it_Items it)))));
      [done|lia].
Qed.

Lemma StaticIterator_drain_witness :
  drain 3 (mkStaticIterator [item "a"; item "b"; item "c"] 1) (item "old")
  = Some ([item "b"; item "c"],
          mkStaticIterator [item "a"; item "b"; item "c"] 3, item "c").
Proof.
  destruct (StaticIterator_drain
              (mkStaticIterator [item "a"; item "b"; item "c"] 1)
              (item "old") 3) as [H _]; [simpl; lia|simpl; lia|].
  exact H.
Defined.

(** X14: a negative Index is not caught by the test against the length:
    Next then panics at the index expression, whatever the items are,
    also when there are none. *)
Theorem Next_negative_Index (it : StaticIterator) (x : ListItem) :
  Index it < 0 → Next it x = None.
Proof.
  intros H. unfold Next.
  destruct (Z.leb_spec (Z.of_nat (length (it_Items it))) (Index it)); [lia|].
  by destruct (Z.ltb_spec (Index it) 0); [|lia].
Qed.

Lemma Next_negative_Index_witness :
  Next (mkStaticIterator [] (-1)) (item "old") = None.
Proof.
  apply (Next_negative_Index (mkStaticIterator [] (-1)) (item "old")).
  simpl. lia.
Defined.

(** ** The loop of SortAndCollapse *)

Section collapse_facts.

Variable Delimiter : byte.
Variable prefix : list byte.

(** What an entry of the result is, given the items read: an item
    itself, if its key has no delimiter behind the prefix; otherwise an
    entry marked IsPrefix whose key is the key of an item cut behind
    the first delimiter that follows the prefix. *)
Definition collapsed_from (src : list ListItem) (r : ListItem) : Prop :=
  (r ∈ src ∧ Delimiter ∉ drop (length prefix) (Key r)) ∨
  (∃ x seg rest,
     x ∈ src ∧
     Key x = take (length prefix) (Key x) ++ seg ++ Delimiter :: rest ∧
     (Delimiter ∉ seg) ∧
     r = mkListItem (take (length prefix) (Key x) ++ seg ++ [Delimiter])
                    [] true).

(** An item is accounted for by the result: it is an entry, or its key
    starts with the key of an entry marked IsPrefix. *)
Definition covered (res : list ListItem) (x : ListItem) : Prop :=
  x ∈ res ∨
  ∃ r, r ∈ res ∧ IsPrefix r = true ∧ HasPrefix (Key x) (Key r) = true.

Definition collapse_inv (a : list ListItem) (i : nat) (st : collapse)
  : Prop :=
  shares a i (out st) ∧
  (prefixed st = true →
   ∃ r, r ∈ result (out st) ∧ IsPrefix r = true ∧ Key r = currentPrefix st) ∧
  Forall (collapsed_from (take i a)) (result (out st)) ∧
  Forall (covered (result (out st))) (take i a).

Lemma collapsed_from_mono (src : list ListItem) (x r : ListItem) :
  collapsed_from src r → collapsed_from (src ++ [x]) r.
Proof.
  intros [[H1 H2]|(y & seg & rest & H1 & H2)]; [left|right].
  - split; [|done]. apply elem_of_app. by left.
  - exists y, seg, rest. split; [|done]. apply elem_of_app. by left.
Qed.

Lemma covered_mono (res : list ListItem) (x r : ListItem) :
  covered res x → covered (res ++ [r]) x.
Proof.
  intros [H|(y & H1 & H2)]; [left|right].
  - apply elem_of_app. by left.
  - exists y. split; [|done]. apply elem_of_app. by left.
Qed.

Lemma cut_key (key : list byte) :
  (length prefix ≤ length key)%nat →
  0 ≤ IndexByte (drop (length prefix) key) Delimiter →
  ∃ seg rest,
    key = take (length prefix) key ++ seg ++ Delimiter :: rest ∧
    (Delimiter ∉ seg) ∧
    take (length prefix +
          Z.to_nat (IndexByte (drop (length prefix) key) Delimiter) + 1) key
    = take (length prefix) key ++ seg ++ [Delimiter].
Proof.
  intros Hlen Hp.
  destruct (IndexByte_found _ _ Hp) as (seg & rest & Hd & Hseg & Hl).
  exists seg, rest. rewrite <- Hl.
  assert (key = take (length prefix) key ++ seg ++ Delimiter :: rest) as Hk.
  { by rewrite <- Hd, take_drop. }
  split; [done|]. split; [done|].
  rewrite Hk at 1.
  rewrite take_app_ge; rewrite length_take; [|lia].
  f_equal.
  replace (length prefix + length seg + 1 - length prefix `min` length key)%nat
    with (length seg + 1)%nat by lia.
  rewrite take_app_ge by lia. f_equal.
  by replace (length seg + 1 - length seg)%nat with 1%nat by lia.
Qed.

Lemma collapse_step (a : list ListItem) (i : nat) (st : collapse)
    (x : ListItem) :
  collapse_inv a i st → a !! i = Some x →
  (length prefix ≤ length (Key x))%nat →
  ∃ st', collapse_body Delimiter prefix st x = Some st' ∧
         collapse_inv a (S i) st'.
Proof.
  intros (Hs & Hp & Hres & Hcov) Hx Hlen.
  assert (i < length a)%nat as Hi by by eapply lookup_lt_Some.
  unfold collapse_body, collapse_inv. rewrite (take_S_r _ _ _ Hx).
  destruct (prefixed st && HasPrefix (Key x) (currentPrefix st)) eqn:Hskip.
  { apply andb_true_iff in Hskip as [Hpre Hhas].
    exists st. split; [done|]. split; [by apply shares_skip|].
    split; [done|]. split.
    - eapply Forall_impl; [done|]. intros. by apply collapsed_from_mono.
    - apply Forall_app. split; [done|]. apply Forall_singleton.
      destruct (Hp Hpre) as (r & Hr1 & Hr2 & Hr3).
      right. exists r. by rewrite Hr3. }
  destruct (Nat.ltb_spec (length (Key x)) (length prefix)); [lia|].
  destruct (Z.leb_spec 0 (IndexByte (drop (length prefix) (Key x)) Delimiter))
    as [Hfound|Hnone].
  - destruct (cut_key (Key x) Hlen Hfound) as (seg & rest & Hk & Hseg & Hcut).
    rewrite Hcut.
    set (r := mkListItem (take (length prefix) (Key x) ++ seg ++ [Delimiter])
                         [] true).
    destruct (shares_append a i (out st) r Hs Hi) as [Ha Hra].
    eexists. split; [done|]. simpl. rewrite Hra.
    split; [done|]. split; [|split].
    + intros _. exists r. split; [|done]. apply elem_of_app. right.
      by apply list_elem_of_singleton.
    + apply Forall_app. split.
      * eapply Forall_impl; [done|]. intros. by apply collapsed_from_mono.
      * apply Forall_singleton. right. exists x, seg, rest.
        split; [|done]. apply elem_of_app. right.
        by apply list_elem_of_singleton.
    + apply Forall_app. split.
      * eapply Forall_impl; [done|]. intros. by apply covered_mono.
      * apply Forall_singleton. right. exists r.
        split; [apply elem_of_app; right; by apply list_elem_of_singleton|].
        split; [done|]. apply HasPrefix_app. exists rest. simpl.
        rewrite Hk at 1. by rewrite <- !app_assoc.
  - destruct (shares_append a i (out st) x Hs Hi) as [Ha Hra].
    eexists. split; [done|]. simpl. rewrite Hra.
    split; [done|]. split; [done|]. split.
    + apply Forall_app. split.
      * eapply Forall_impl; [done|]. intros. by apply collapsed_from_mono.
      * apply Forall_singleton. left. split.
        -- apply elem_of_app. right. by apply list_elem_of_singleton.
        -- apply IndexByte_absent. lia.
    + apply Forall_app. split.
      * eapply Forall_impl; [done|]. intros. by apply covered_mono.
      * apply Forall_singleton. left. apply elem_of_app. right.
        by apply list_elem_of_singleton.
Qed.

Lemma collapse_range (a : list ListItem) (n i : nat) (st : collapse) :
  collapse_inv a i st → (i + n ≤ length a)%nat →
  Forall (λ x, (length prefix ≤ length (Key x))%nat) (take (i + n) a) →
  ∃ st', range (λ st, cells (out st)) (collapse_body Delimiter prefix)
               n i st = Some st' ∧
         collapse_inv a (i + n) st'.
Proof.
  revert i st. induction n as [|n IH]; intros i st Hinv Hn Hkeys; simpl.
  - exists st. by rewrite Nat.add_0_r.
  - rewrite (shares_read a i (out st)) by apply Hinv.
    destruct (lookup_lt_is_Some_2 a i) as [x Hx]; [lia|]. rewrite Hx.
    destruct (collapse_step a i st x Hinv Hx) as (st' & -> & Hinv').
    { eapply (proj1 (Forall_lookup _ _) Hkeys i).
      rewrite lookup_take_lt by lia. done. }
    replace (i + S n)%nat with (S i + n)%nat in * by lia.
    by apply IH.
Qed.

End collapse_facts.

(** X15: the loop of SortAndCollapse, run on a slice whose keys are all at
    least as long as the prefix, does not panic and collapses in place.
    Every entry of its result is an item without a delimiter behind the
    prefix, or an entry marked IsPrefix whose key is an item's key cut
    just behind the first such delimiter; every item is an entry of the
    result or lies under one of its IsPrefix entries; the result is a
    slice of the caller's array, not longer than the items, and the cells
    behind it are untouched. *)
Theorem SortAndCollapse_loop_collapses (Delimiter : byte) (items : Items)
    (prefix : list byte) :
  (len items ≤ length (array items))%nat →
  Forall (λ x, (length prefix ≤ length (Key x))%nat) (elements items) →
  ∃ st, SortAndCollapse_loop Delimiter items prefix = Some st ∧
        moved (out st) = None ∧
        (length (result (out st)) ≤ len items)%nat ∧
        cells (out st)
        = result (out st) ++ drop (length (result (out st))) (array items) ∧
        Forall (collapsed_from Delimiter prefix (elements items))
               (result (out st)) ∧
        Forall (covered (result (out st))) (elements items).
Proof.
  intros Hlen Hkeys.
  destruct (collapse_range Delimiter prefix (array items) (len items) 0
              (mkCollapse (mkLoop (array items) None 0) [] false))
    as (st & Hst & Hs & _ & Hres & Hcov); [|simpl; lia|done|].
  { split; [apply shares_start|]. split; [done|]. simpl. split.
    - apply Forall_nil_2.
    - apply Forall_nil_2. }
  exists st. split; [done|]. split; [apply Hs|].
  rewrite (shares_result_length _ _ _ Hs) by (simpl; lia).
  split; [apply Hs|]. split; [by eapply shares_cells|]. done.
Qed.

Lemma SortAndCollapse_loop_collapses_witness :
  ∃ st, SortAndCollapse_loop Byte.x2f
          (mkItems [item "a/b/1"; item "a/b/2"; item "a/c"; item "z"] 3)
          (list_byte_of_string "a/") = Some st ∧
        result (out st) = [mkListItem (list_byte_of_string "a/b/") [] true;
                           item "a/c"] ∧
        cells (out st) = [mkListItem (list_byte_of_string "a/b/") [] true;
                          item "a/c"; item "a/c"; item "z"].
Proof.
  destruct (SortAndCollapse_loop_collapses Byte.x2f
              (mkItems [item "a/b/1"; item "a/b/2"; item "a/c"; item "z"] 3)
              (list_byte_of_string "a/"))
    as (st & Hst & _); [simpl; lia|repeat constructor|].
  exists st. split; [exact Hst|].
  vm_compute in Hst. injection Hst as <-. by split.
Defined.

(** X16: an item that the loop does not skip and whose key is shorter than
    the prefix makes SortAndCollapse panic at item.Key[len(prefix):]; the
    first item is never skipped. *)
Theorem SortAndCollapse_loop_short_key (Delimiter : byte) (items : Items)
    (prefix : list byte) (x : ListItem) :
  (0 < len items)%nat → array items !! 0%nat = Some x →
  (length (Key x) < length prefix)%nat →
  SortAndCollapse_loop Delimiter items prefix = None.
Proof.
  intros Hn Hx Hshort. unfold SortAndCollapse_loop.
  destruct (len items) as [|n]; [lia|]. simpl. rewrite Hx.
  unfold collapse_body. simpl.
  by destruct (Nat.ltb_spec (length (Key x)) (length prefix)); [|lia].
Qed.

Lemma SortAndCollapse_loop_short_key_witness :
  SortAndCollapse_loop Byte.x2f (mkItems [item "a"; item "a/b"] 2)
                       (list_byte_of_string "a/") = None.
Proof.
  apply (SortAndCollapse_loop_short_key Byte.x2f
           (mkItems [item "a"; item "a/b"] 2) (list_byte_of_string "a/")
           (item "a")); [simpl; lia|reflexivity|simpl; lia].
Defined.

End storage.

(** * The storj backend of rclone: newPrefix *)

Module storj.

Import Stdlib.Strings.Ascii.

(** newPrefix(prefix); prefix[len(prefix)-1] is the last byte of a
    string that is not empty. *)
Definition newPrefix (prefix : string) : string :=
  if String.eqb prefix EmptyString then prefix
  else match String.get (String.length prefix - 1) prefix with
       | Some c => if Ascii.eqb c "/"%char then prefix
                   else String.append prefix "/"
       | None => String.append prefix "/"
       end.

Lemma get_last_append (s : string) (c : ascii) :
  String.get (String.length (String.append s (String c EmptyString)) - 1)
             (String.append s (String c EmptyString)) = Some c.
Proof.
  induction s as [|d s IH]; simpl; [done|].
  rewrite Nat.sub_0_r.
  destruct (String.length (String.append s (String c EmptyString))) eqn:E.
  - by destruct s.
  - simpl in IH. by rewrite Nat.sub_0_r in IH.
Qed.

(** X17: newPrefix leaves the empty string and a string that ends in a
    slash as they are and appends one slash to any other; so its result
    is empty exactly when its argument is, ends in a slash otherwise, and
    applying it again changes nothing. *)
Theorem newPrefix_trailing_slash (prefix : string) :
  (newPrefix prefix = prefix ∨ newPrefix prefix = String.append prefix "/") ∧
  (newPrefix prefix = EmptyString ↔ prefix = EmptyString) ∧
  (prefix ≠ EmptyString →
   String.get (String.length (newPrefix prefix) - 1) (newPrefix prefix)
   = Some "/"%char) ∧
  (String.get (String.length prefix - 1) prefix = Some "/"%char →
   newPrefix prefix = prefix) ∧
  newPrefix (newPrefix prefix) = newPrefix prefix.
Proof.
  assert (∀ s, s ≠ EmptyString →
               String.get (String.length s - 1) s = Some "/"%char →
               newPrefix s = s) as Hfix.
  { intros s Hs Hg. unfold newPrefix.
    destruct (String.eqb_spec s EmptyString); [done|]. by rewrite Hg. }
  assert (∀ s, String.append s "/" ≠ EmptyString) as Hne.
  { by intros [|]. }
  assert ((prefix = EmptyString ∧ newPrefix prefix = EmptyString) ∨
          (prefix ≠ EmptyString ∧
           String.get (String.length prefix - 1) prefix = Some "/"%char ∧
           newPrefix prefix = prefix) ∨
          (prefix ≠ EmptyString ∧
           String.get (String.length prefix - 1) prefix ≠ Some "/"%char ∧
           newPrefix prefix = String.append prefix "/")) as Hcases.
  { unfold newPrefix.
    destruct (String.eqb_spec prefix EmptyString) as [->|Hp]; [by left|right].
    destruct (String.get (String.length prefix - 1) prefix) as [c|];
      [|by right].
    destruct (Ascii.eqb_spec c "/"%char) as [->|Hc]; [by left|right].
    split; [done|]. split; [|done]. by intros [= ->]. }
  destruct Hcases as [[-> ->]|[(Hp & Hg & ->)|(Hp & Hg & ->)]].
  - split; [by left|]. split; [done|]. split; [done|]. split; [done|].
    done.
  - split; [by left|]. split; [done|]. split; [done|]. split; [done|].
    by apply Hfix.
  - split; [by right|]. split; [split; [by intros ?%Hne|done]|].
    split; [intros _; apply get_last_append|]. split; [done|].
    apply Hfix; [apply Hne|apply get_last_append].
Qed.

End storj.
